(** * GameStore: the API layer of the page script

    A shallow embedding of the classes [ApiManager], [ProductRenderer] and
    [DataLoader] of the page script: the request cache of
    [ApiManager.makeRequest] (a JS [Map] keyed by URL and serialized options,
    entries stamped with [Date.now()], served for 300000 ms), its
    [AbortController] timeout, the accessors that degrade to an empty array,
    the constructor-based singleton, and the star string of
    [ProductRenderer.createRatingStars]; then the pure parts of the rest of
    the page ([truncateText], [getCurrentPage], [handleCategoryFilter], the
    cart counter, [validarPesquisa]) and of [GameStoreManager] (the cart in
    [localStorage], [isValidEmail], [validateFormData]).

    Conventions.
    - An [async] method is modelled from its invocation to the settlement of
      its promise.  What the outside world contributes to one call (the two
      readings of the clock, what the network does with the request) is an
      explicit argument of type [Env].
    - [await] on a rejected promise and [throw] are the [Throw] completion;
      [try]/[catch] is [try_catch].  An [await] on a promise that never
      settles is the [Pending] completion: nothing after it runs.
    - Options that [JSON.stringify] refuses (a [BigInt], a cycle) are the
      [NotSerializable] case of [makeRequest_any]; the key is computed
      before the [try].
    - [console.error] and [console.log] have no effect on what is modelled
      here and are left out. *)

From Stdlib Require Import ZArith QArith Qround Lqa String Ascii List Lia DecimalString.
From Stdlib Require Import DecimalPos DecimalZ.
From stdpp Require Import base list gmap strings.

Set Warnings "-register-all".

Local Open Scope string_scope.
Local Open Scope Z_scope.

(** ** The host language *)

Module JS.

(** The error classes that reach the code: [Error] (thrown by the code
    itself), [TypeError] (a failed [fetch] or body stream), [SyntaxError]
    ([response.json()] on a body that is not JSON) and the [DOMException]
    named [AbortError] (an aborted [fetch]). *)
Inductive ErrorName := Error | TypeError | SyntaxError | AbortError.

Record JsError := mkError { name : ErrorName; message : string }.

(** Normal or abrupt completion of a call; [Pending] is the promise of an
    [async] call that never settles. *)
Inductive Completion (A : Type) :=
| Return (a : A)
| Throw (e : JsError)
| Pending.
Arguments Return {A} a.
Arguments Throw {A} e.
Arguments Pending {A}.

(** [try { body } catch (error) { handler }] over a state [S]. *)
Definition try_catch {A S : Type}
    (body : Completion A * S) (handler : JsError -> S -> Completion A * S)
    : Completion A * S :=
  match body with
  | (Return a, s) => (Return a, s)
  | (Throw error, s) => handler error s
  | (Pending, s) => (Pending, s)
  end.

(** [`${n}`] for an integral number [n]. *)
Definition number_to_string (n : Z) : string :=
  NilZero.string_of_int (Z.to_int n).

(** Parsed JSON.  A JSON number is a finite double, hence a rational. *)
Inductive JSON :=
| JNull
| JBool (b : bool)
| JNumber (q : Q)
| JString (s : string)
| JArray (items : list JSON)
| JObject (fields : list (string * JSON)).

(** The values of a [fetch] options object ([method], [headers], [body],
    [mode], ...) that [JSON.stringify] serializes: strings, booleans,
    [null], and arrays and objects of them.  An object is the list of its
    properties, of distinct names, in the order of their creation. *)
Inductive OptionValue :=
| ONull
| OBool (b : bool)
| OString (s : string)
| OArray (items : list OptionValue)
| OObject (fields : list (string * OptionValue)).

Definition RequestInit := list (string * OptionValue).

Definition dquote : ascii := ascii_of_nat 34.
Definition backslash : ascii := ascii_of_nat 92.

Definition hex_digit (n : nat) : ascii :=
  match String.get n "0123456789abcdef" with
  | Some c => c
  | None => "0"%char
  end.

(** One character of [QuoteJSONString]. *)
Definition quote_char (c : ascii) : string :=
  let n := nat_of_ascii c in
  if Nat.eqb n 8 then String backslash "b"
  else if Nat.eqb n 9 then String backslash "t"
  else if Nat.eqb n 10 then String backslash "n"
  else if Nat.eqb n 12 then String backslash "f"
  else if Nat.eqb n 13 then String backslash "r"
  else if Nat.eqb n 34 then String backslash (String dquote "")
  else if Nat.eqb n 92 then String backslash (String backslash "")
  else if Nat.ltb n 32 then
    String backslash
      ("u00" +:+ String (hex_digit (Nat.div n 16))
                   (String (hex_digit (Nat.modulo n 16)) ""))
  else String c "".

Fixpoint quote_chars (s : string) : string :=
  match s with
  | EmptyString => ""
  | String c rest => quote_char c +:+ quote_chars rest
  end.

Definition quote (s : string) : string :=
  String dquote (quote_chars s +:+ String dquote "").

(** The character that a quoted text starts with, and what follows it:
    the inverse of [quote_char], undefined at the closing quote. *)
Definition hex_value (c : ascii) : option nat :=
  match String.index 0 (String c "") "0123456789abcdef" with
  | Some n => Some n
  | None => None
  end.

Definition unquote_char (s : string) : option (ascii * string) :=
  match s with
  | EmptyString => None
  | String c rest =>
      if Ascii.eqb c backslash then
        match rest with
        | String e rest' =>
            if Ascii.eqb e "b" then Some (ascii_of_nat 8, rest')
            else if Ascii.eqb e "t" then Some (ascii_of_nat 9, rest')
            else if Ascii.eqb e "n" then Some (ascii_of_nat 10, rest')
            else if Ascii.eqb e "f" then Some (ascii_of_nat 12, rest')
            else if Ascii.eqb e "r" then Some (ascii_of_nat 13, rest')
            else if Ascii.eqb e dquote then Some (dquote, rest')
            else if Ascii.eqb e backslash then Some (backslash, rest')
            else
              match rest' with
              | String _ (String _ (String h (String l rest''))) =>
                  match hex_value h, hex_value l with
                  | Some a, Some b => Some (ascii_of_nat (16 * a + b), rest'')
                  | _, _ => None
                  end
              | _ => None
              end
        | EmptyString => None
        end
      else if Ascii.eqb c dquote then None
      else Some (c, rest)
  end.

(** A text from which the first element can be read back, whatever
    follows it. *)
Definition uniquely_read {A : Type} (f : A -> string) (a : A) : Prop :=
  forall a' r r', f a +:+ r = f a' +:+ r' -> a = a' /\ r = r'.

(** An array index: the canonical decimal name of an integer from 0 to
    2^32 - 2. *)
Definition array_index (name : string) : option N :=
  match NilZero.int_of_string name with
  | Some (Decimal.Pos d) =>
      let n := N.of_uint d in
      if String.eqb (NilZero.string_of_uint (N.to_uint n)) name
         && (n <? 4294967295)%N
      then Some n
      else None
  | _ => None
  end.

(** The order in which the own properties of an object are visited: the
    array indices in ascending order, then the other names in the order of
    their creation. *)
Section PropertyOrder.
Context {A : Type}.

Fixpoint insert_index (n : N) (kv : string * A) (sorted : list (N * (string * A)))
    : list (N * (string * A)) :=
  match sorted with
  | [] => [(n, kv)]
  | (m, kv') :: rest =>
      if (n <=? m)%N then (n, kv) :: sorted
      else (m, kv') :: insert_index n kv rest
  end.

Fixpoint index_properties (fields : list (string * A)) : list (N * (string * A)) :=
  match fields with
  | [] => []
  | kv :: rest =>
      match array_index (fst kv) with
      | Some n => insert_index n kv (index_properties rest)
      | None => index_properties rest
      end
  end.

Definition own_property_order (fields : list (string * A)) : list (string * A) :=
  (List.map snd (index_properties fields)
   ++ List.filter
        (fun kv => match array_index (fst kv) with Some _ => false | None => true end)
        fields)%list.
End PropertyOrder.

(** A value with the properties of every object in the order they are
    visited in. *)
Fixpoint enumerate (v : OptionValue) : OptionValue :=
  match v with
  | OArray items => OArray (List.map enumerate items)
  | OObject fields =>
      OObject (own_property_order
                 (List.map (fun kv => (fst kv, enumerate (snd kv))) fields))
  | _ => v
  end.

(** No name is an array index, at any depth. *)
Fixpoint index_free (v : OptionValue) : bool :=
  match v with
  | OArray items => List.forallb index_free items
  | OObject fields =>
      List.forallb
        (fun kv => match array_index (fst kv) with
                   | Some _ => false
                   | None => index_free (snd kv)
                   end)
        fields
  | _ => true
  end.

(** The JSON text of a value, its properties written in the order of the
    list. *)
Fixpoint render (v : OptionValue) : string :=
  match v with
  | ONull => "null"
  | OBool true => "true"
  | OBool false => "false"
  | OString s => quote s
  | OArray items =>
      "[" +:+ String.concat "," (List.map render items) +:+ "]"
  | OObject fields =>
      "{" +:+ String.concat ","
                (List.map (fun kv => quote (fst kv) +:+ ":" +:+ render (snd kv))
                          fields)
          +:+ "}"
  end.

(** [JSON.stringify] without indentation, on the values it serializes. *)
Definition JSON_stringify (v : OptionValue) : string := render (enumerate v).

(** *** [Map]

    A JS [Map] is a list of entries in insertion order; [set] on a key
    that is present overwrites the value in place, otherwise it appends. *)
Section JsMap.
Context {V : Type}.

Definition JsMap := list (string * V).

Fixpoint map_has (k : string) (m : JsMap) : bool :=
  match m with
  | [] => false
  | (k', _) :: m' => if String.eqb k k' then true else map_has k m'
  end.

Fixpoint map_get (k : string) (m : JsMap) : option V :=
  match m with
  | [] => None
  | (k', v) :: m' => if String.eqb k k' then Some v else map_get k m'
  end.

Fixpoint map_set (k : string) (v : V) (m : JsMap) : JsMap :=
  match m with
  | [] => [(k, v)]
  | (k', v') :: m' =>
      if String.eqb k k' then (k', v) :: m' else (k', v') :: map_set k v m'
  end.

Definition map_clear (m : JsMap) : JsMap := [].

(** The entries stored under [k]. *)
Definition entries_of (k : string) (m : JsMap) : list V :=
  List.map snd (List.filter (fun kv => String.eqb k (fst kv)) m).
End JsMap.
Arguments JsMap V : clear implicits.

(** *** Sequencing, truthiness and property access *)

(** Run [k] on the value of [c], or pass on what [c] throws. *)
Definition bind {A B S : Type}
    (c : Completion A * S) (k : A -> S -> Completion B * S) : Completion B * S :=
  match c with
  | (Return a, s) => k a s
  | (Throw e, s) => (Throw e, s)
  | (Pending, s) => (Pending, s)
  end.

(** [ToBoolean] on parsed JSON: [null], [false], [0] and [""] are falsy. *)
Definition truthy (v : JSON) : bool :=
  match v with
  | JNull => false
  | JBool b => b
  | JNumber q => negb (Qeq_bool q 0)
  | JString s => negb (String.eqb s "")
  | JArray _ => true
  | JObject _ => true
  end.

Fixpoint assoc (p : string) (fields : list (string * JSON)) : option JSON :=
  match fields with
  | [] => None
  | (k, v) :: rest => if String.eqb p k then Some v else assoc p rest
  end.

(** The message of the [TypeError] of a property read on [null]; it is
    the engine's. *)
Definition null_property_message : string :=
  "Cannot read properties of null".

(** [v.p] on parsed JSON, for a name [p] that no prototype defines (such
    as [results]): a [TypeError] on [null], the own property of an object,
    [undefined] ([None]) on everything else. *)
Definition get_property (p : string) (v : JSON) : Completion (option JSON) :=
  match v with
  | JNull => Throw (mkError TypeError null_property_message)
  | JObject fields => Return (assoc p fields)
  | _ => Return None
  end.

(** [a || b]. *)
Definition or_else (a : option JSON) (b : JSON) : JSON :=
  match a with
  | Some v => if truthy v then v else b
  | None => b
  end.

(** *** [String.prototype.split] on a one-character separator *)

Fixpoint split (sep : ascii) (s : string) : list string :=
  match s with
  | EmptyString => [""]
  | String c rest =>
      if Ascii.eqb c sep then "" :: split sep rest
      else
        match split sep rest with
        | piece :: pieces => String c piece :: pieces
        | [] => [String c ""]
        end
  end.

Fixpoint contains_char (c : ascii) (s : string) : bool :=
  match s with
  | EmptyString => false
  | String c' rest => Ascii.eqb c' c || contains_char c rest
  end.

End JS.

Import JS.

(** ** The network, as one call sees it *)

Module Net.

(** What [response.json()] settles to: the parsed body, a [SyntaxError]
    (the body is not JSON) or a [TypeError] (the body stream failed); or it
    never settles, when the body stalls. *)
Inductive BodyOutcome :=
| Parses (d : JSON)
| NotJson (msg : string)
| StreamFails (msg : string)
| NeverSettles.

Record Response := mkResponse { status : Z; body : BodyOutcome }.

(** [response.ok]: the status is in the range 200-299. *)
Definition ok (r : Response) : bool :=
  (200 <=? status r) && (status r <=? 299).

Definition json (r : Response) : Completion JSON :=
  match body r with
  | Parses d => Return d
  | NotJson msg => Throw (mkError SyntaxError msg)
  | StreamFails msg => Throw (mkError TypeError msg)
  | NeverSettles => Pending
  end.

(** What the promise of [fetch] settles to when nobody aborts it: a
    response (of any status) or a [TypeError] (DNS, connection, CORS). *)
Inductive Settlement :=
| Responds (r : Response)
| Fails (msg : string).

(** [latency] is the time in ms, counted from the call of [fetch], at
    which its promise settles; [None] when it never does. *)
Record Exchange := mkExchange { latency : option Z; settlement : Settlement }.

Record Request := mkRequest { req_url : string; req_options : RequestInit }.

(** [await fetch(url, { ...options, signal })] with a timer that calls
    [controller.abort()] after [timeout] ms: the promise settles on its
    own when it does so before the timer fires, otherwise it is rejected
    with the [AbortError] of the signal, whose message is the browser's. *)
Definition fetch (timeout : Z) (abort_message : string) (x : Exchange)
    : Completion Response :=
  match latency x with
  | Some t =>
      if t <? timeout then
        match settlement x with
        | Responds r => Return r
        | Fails msg => Throw (mkError TypeError msg)
        end
      else Throw (mkError AbortError abort_message)
  | None => Throw (mkError AbortError abort_message)
  end.

(** The outside world during one call of [makeRequest]. *)
Record Env := mkEnv {
  now_read : Z;            (* [Date.now()] of the freshness test *)
  exchange : Exchange;     (* what the network does with the request *)
  abort_message : string;  (* the message of the browser's [AbortError] *)
  now_write : Z;           (* [Date.now()] of the stored entry *)
  body_latency : Z         (* ms from the fulfilment of [fetch] to the
                              settlement of [response.json()], when it
                              settles *)
}.

End Net.

Import Net.

(** ** class ApiManager *)

Module ApiManager.

Record BaseUrls := mkBaseUrls { products : string; users : string }.

Record CacheEntry := mkEntry { data : JSON; timestamp : Z }.

(** The fields of an instance. *)
Record t := mk {
  baseUrls : BaseUrls;
  cache : JsMap CacheEntry;
  requestTimeout : Z
}.

(** The instance a method runs on, and the requests handed to [fetch] so
    far (latest first). *)
Record State := mkState { this : t; network_log : list Request }.

Definition set_cache (c : JsMap CacheEntry) (st : State) : State :=
  {| this := {| baseUrls := baseUrls (this st);
                cache := c;
                requestTimeout := requestTimeout (this st) |};
     network_log := network_log st |}.

Definition log_request (r : Request) (st : State) : State :=
  {| this := this st; network_log := r :: network_log st |}.

(** The fields set by the constructor. *)
Definition initial : t :=
  {| baseUrls := {| products := "https://fakestoreapi.com/products";
                    users := "https://randomuser.me/api" |};
     cache := [];
     requestTimeout := 10000 |}.

Definition cacheKey (url : string) (options : RequestInit) : string :=
  url +:+ "_" +:+ JSON_stringify (OObject options).

(** The cache test at the head of [makeRequest]: the data of the entry
    under [key] when there is one and it is younger than 300000 ms. *)
Definition cached (key : string) (now : Z) (c : JsMap CacheEntry) : option JSON :=
  if map_has key c then
    match map_get key c with
    | Some cachedData =>
        if now - timestamp cachedData <? 300000 then Some (data cachedData)
        else None
    | None => None
    end
  else None.

(** The [try] block of [makeRequest].  The timer is cleared as soon as the
    promise of [fetch] is fulfilled, before [response.json()] is called:
    reading the body is not under the timer. *)
Definition makeRequest_try (url : string) (options : RequestInit)
    (env : Env) (st : State) : Completion JSON * State :=
  let key := cacheKey url options in
  let st := log_request (mkRequest url options) st in
  match fetch (requestTimeout (this st)) (abort_message env) (exchange env) with
  | Throw e => (Throw e, st)
  | Return response =>
      if negb (ok response) then
        (Throw (mkError Error
                  ("HTTP error! status: " +:+ number_to_string (status response))),
         st)
      else
        match json response with
        | Throw e => (Throw e, st)
        | Pending => (Pending, st)
        | Return d =>
            (Return d,
             set_cache (map_set key (mkEntry d (now_write env)) (cache (this st))) st)
        end
  | Pending => (Pending, st)
  end.

(** The [catch] block of [makeRequest]. *)
Definition makeRequest_catch (error : JsError) (st : State)
    : Completion JSON * State :=
  (Throw (mkError Error ("Falha ao carregar dados: " +:+ message error)), st).

Definition makeRequest (url : string) (options : RequestInit)
    (env : Env) (st : State) : Completion JSON * State :=
  match cached (cacheKey url options) (now_read env) (cache (this st)) with
  | Some d => (Return d, st)
  | None => try_catch (makeRequest_try url options env st) makeRequest_catch
  end.

(** The [options] argument of a call: an object that [JSON.stringify]
    serializes, or one it throws a [TypeError] on (an object that holds a
    [BigInt] or refers back to itself); the message is the engine's. *)
Inductive Options :=
| Serializable (options : RequestInit)
| NotSerializable (message : string).

(** [makeRequest] on any options.  The key is computed first, before the
    cache test and outside the [try]: what [JSON.stringify] throws leaves
    the call as it is. *)
Definition makeRequest_any (url : string) (options : Options)
    (env : Env) (st : State) : Completion JSON * State :=
  match options with
  | Serializable options => makeRequest url options env st
  | NotSerializable message => (Throw (mkError TypeError message), st)
  end.

(** The time, in ms from the call, at which the promise of [makeRequest]
    settles, [None] when it never does: at once on a fresh entry, when the
    timer fires on an abort, when [fetch] settles on a rejection or on a
    status that is not a success, and otherwise when the body has been
    read. *)
Definition settles_after (url : string) (options : RequestInit)
    (env : Env) (st : State) : option Z :=
  match cached (cacheKey url options) (now_read env) (cache (this st)) with
  | Some _ => Some 0
  | None =>
      match latency (exchange env) with
      | None => Some (requestTimeout (this st))
      | Some t =>
          if t <? requestTimeout (this st) then
            match settlement (exchange env) with
            | Fails _ => Some t
            | Responds r =>
                if ok r then
                  match body r with
                  | NeverSettles => None
                  | _ => Some (t + body_latency env)
                  end
                else Some t
            end
          else Some (requestTimeout (this st))
      end
  end.

(** The accessors call [makeRequest(url)], that is with [options = {}]. *)
Definition empty_array (error : JsError) (st : State) : Completion JSON * State :=
  (Return (JArray []), st).

Definition fetchProducts (limit : Z) (env : Env) (st : State)
    : Completion JSON * State :=
  try_catch
    (let url := products (baseUrls (this st)) +:+ "?limit=" +:+ number_to_string limit in
     makeRequest url [] env st)
    empty_array.

Definition fetchAllProducts (env : Env) (st : State) : Completion JSON * State :=
  try_catch (makeRequest (products (baseUrls (this st))) [] env st) empty_array.

Definition fetchProductsByCategory (category : string) (env : Env) (st : State)
    : Completion JSON * State :=
  try_catch
    (let url := products (baseUrls (this st)) +:+ "/category/" +:+ category in
     makeRequest url [] env st)
    empty_array.

Definition fetchCategories (env : Env) (st : State) : Completion JSON * State :=
  try_catch
    (let url := products (baseUrls (this st)) +:+ "/categories" in
     makeRequest url [] env st)
    empty_array.

(** [response.results || []] inside the [try]: a [null] response makes the
    property read throw, which the same [catch] turns into the empty array. *)
Definition fetchRandomUsers (results : Z) (env : Env) (st : State)
    : Completion JSON * State :=
  try_catch
    (let url := users (baseUrls (this st)) +:+ "?results=" +:+ number_to_string results in
     bind (makeRequest url [] env st)
       (fun response st' =>
          match get_property "results" response with
          | Return r => (Return (or_else r (JArray [])), st')
          | Throw e => (Throw e, st')
          | Pending => (Pending, st')
          end))
    empty_array.

End ApiManager.

Import ApiManager.

(** ** class DataLoader *)

Module DataLoader.

(** [this.apiManager.cache.clear()]. *)
Definition clearCache (st : State) : State :=
  set_cache (map_clear (cache (this st))) st.

(** [getCurrentPage], as a function of [window.location.pathname]: the
    last segment of the path up to its first dot, or "index".  [split]
    never returns an empty array, so [pop()] and [[0]] are defined. *)
Definition getCurrentPage (pathname : string) : string :=
  let page := List.hd "" (split "." (List.last (split "/" pathname) "")) in
  if String.eqb page "" then "index" else page.

(** An element of class [produto-api]: [dataset.category] ([None] when the
    attribute is absent), [style.display], and whether its class list holds
    [fade-in]. *)
Record ProductCard := mkCard {
  dataset_category : option string;
  display : string;
  fade_in : bool
}.

Definition same_value (a b : option string) : bool :=
  match a, b with
  | Some x, Some y => String.eqb x y
  | None, None => true
  | _, _ => false
  end.

(** [handleCategoryFilter(category)] on the cards of the page; [category]
    is [None] when the button clicked has no [data-categoria]. *)
Definition handleCategoryFilter (category : option string)
    (products : list ProductCard) : list ProductCard :=
  List.map
    (fun product =>
       if same_value category (Some "todos")
          || same_value (dataset_category product) category
       then {| dataset_category := dataset_category product;
               display := "block"; fade_in := true |}
       else {| dataset_category := dataset_category product;
               display := "none"; fade_in := false |})
    products.

End DataLoader.

(** ** The singleton of [ApiManager]'s constructor *)

Module Singleton.

Definition loc := nat.

(** The static property [ApiManager.instance] ([None] while it is
    [undefined]) and the instances allocated so far. *)
Record Realm := mkRealm {
  instance : option loc;
  heap : gmap loc ApiManager.t
}.

Definition empty : Realm := {| instance := None; heap := ∅ |}.

(** [new ApiManager()].  When [ApiManager.instance] is set the
    constructor returns it, and that object, not the fresh [this], is the
    value of the [new] expression; the fresh object is dropped without a
    field ever being written to it. *)
Definition new_ApiManager (r : Realm) : loc * Realm :=
  match instance r with
  | Some existing => (existing, r)
  | None =>
      let this := fresh (dom (heap r)) in
      (this, {| instance := Some this;
                heap := <[this := ApiManager.initial]> (heap r) |})
  end.

(** The field of [DataLoader] that holds the manager. *)
Record DataLoader := mkDataLoader { apiManager : loc }.

Definition new_DataLoader (r : Realm) : DataLoader * Realm :=
  let (m, r') := new_ApiManager r in
  ({| apiManager := m |}, r').

(** A write to the fields of the object behind a reference. *)
Definition write (l : loc) (f : ApiManager.t -> ApiManager.t) (r : Realm) : Realm :=
  {| instance := instance r; heap := alter f l (heap r) |}.

Definition read (l : loc) (r : Realm) : option ApiManager.t := heap r !! l.

(** [n] constructions in a row: the references they return, in order. *)
Fixpoint construct_many (n : nat) (r : Realm) : list loc * Realm :=
  match n with
  | O => ([], r)
  | S n' =>
      let (l, r1) := new_ApiManager r in
      let (ls, r2) := construct_many n' r1 in
      (l :: ls, r2)
  end.

End Singleton.

(** ** Strings as UTF-16 code units *)

Module UStr.

Definition of_string (s : string) : list N :=
  List.map N_of_ascii (list_ascii_of_string s).

(** The white space and line terminators that [trim] removes. *)
Definition is_white_space (c : N) : bool :=
  ((9 <=? c) && (c <=? 13))%N
  || (c =? 32)%N || (c =? 160)%N || (c =? 5760)%N
  || ((8192 <=? c) && (c <=? 8202))%N
  || (c =? 8232)%N || (c =? 8233)%N || (c =? 8239)%N || (c =? 8287)%N
  || (c =? 12288)%N || (c =? 65279)%N.

Fixpoint trim_start (s : list N) : list N :=
  match s with
  | [] => []
  | c :: rest => if is_white_space c then trim_start rest else s
  end.

Definition trim_end (s : list N) : list N := rev (trim_start (rev s)).

Definition trim (s : list N) : list N := trim_end (trim_start s).

(** [s.substring(start, end)] on integral arguments: both are clamped to
    the string and swapped when out of order. *)
Definition clamp (i : Z) (s : list N) : nat :=
  Z.to_nat (Z.min (Z.max i 0) (Z.of_nat (length s))).

Definition substring (s : list N) (start stop : Z) : list N :=
  let a := clamp start s in
  let b := clamp stop s in
  List.firstn (Nat.max a b - Nat.min a b) (List.skipn (Nat.min a b) s).

Fixpoint starts_with (t s : list N) : bool :=
  match t, s with
  | [], _ => true
  | _ :: _, [] => false
  | a :: t', b :: s' => (a =? b)%N && starts_with t' s'
  end.

(** [s.includes(t)]. *)
Fixpoint includes (s t : list N) : bool :=
  starts_with t s
  || match s with
     | [] => false
     | _ :: s' => includes s' t
     end.

(** [toLowerCase] restricted to the letters A-Z; the other code units are
    left as they are. *)
Definition lower_ascii (s : list N) : list N :=
  List.map (fun c => if ((65 <=? c) && (c <=? 90))%N then (c + 32)%N else c) s.

End UStr.

(** ** class ProductRenderer *)

Module ProductRenderer.

(** A JS string as its UTF-16 code units. *)
Definition ustring := list N.

Definition BLACK_STAR : N := 9733.  (* U+2605 *)
Definition WHITE_STAR : N := 9734.  (* U+2606 *)

(** [s.repeat(count)]: a [RangeError] ([None]) on a negative count. *)
Definition repeat_string (s : ustring) (count : Z) : option ustring :=
  if count <? 0 then None
  else Some (List.concat (List.repeat s (Z.to_nat count))).

(** [rating % 1]: the remainder has the sign of the dividend, so the
    quotient is rounded towards zero. *)
Definition truncate (q : Q) : Z :=
  if Qle_bool 0 q then Qfloor q else Qceiling q.

Definition rem1 (q : Q) : Q := (q - inject_Z (truncate q))%Q.

(** The rating is a finite double; [Math.floor], [% 1] and the comparison
    with 0.5 are exact on doubles, so it is modelled as a rational. *)
Definition createRatingStars (rating : Q) : option ustring :=
  let fullStars := Qfloor rating in
  let hasHalfStar := Qle_bool (1 # 2) (rem1 rating) in
  let emptyStars := 5 - fullStars - (if hasHalfStar then 1 else 0) in
  match repeat_string [BLACK_STAR] fullStars with
  | None => None
  | Some full =>
      match repeat_string [WHITE_STAR] emptyStars with
      | None => None
      | Some empty =>
          Some (full ++ (if hasHalfStar then [WHITE_STAR] else []) ++ empty)%list
      end
  end.

(** A number: a finite double, which is a rational, [NaN], or an
    infinity. *)
Inductive Number := Finite (q : Q) | NaN | Infinity (negative : bool).

(** [Math.floor(x)]. *)
Definition floor (x : Number) : Number :=
  match x with
  | Finite q => Finite (inject_Z (Qfloor q))
  | _ => x
  end.

(** [x % 1]. *)
Definition remainder_1 (x : Number) : Number :=
  match x with
  | Finite q => Finite (rem1 q)
  | _ => NaN
  end.

(** [x >= y] for a finite [y]. *)
Definition at_least (x : Number) (y : Q) : bool :=
  match x with
  | Finite q => Qle_bool y q
  | NaN => false
  | Infinity negative => negb negative
  end.

(** [x - y]. *)
Definition minus (x y : Number) : Number :=
  match x, y with
  | NaN, _ => NaN
  | _, NaN => NaN
  | Finite a, Finite b => Finite (a - b)
  | Finite _, Infinity negative => Infinity (negb negative)
  | Infinity negative, Finite _ => Infinity negative
  | Infinity n, Infinity m => if Bool.eqb n m then NaN else Infinity n
  end.

(** [s.repeat(count)] on any number: the count is truncated, [NaN] counts
    as 0, and an infinite count is a [RangeError] like a negative one. *)
Definition repeat_number (s : ustring) (count : Number) : option ustring :=
  match count with
  | Finite q => repeat_string s (truncate q)
  | NaN => Some []
  | Infinity _ => None
  end.

(** [createRatingStars] on any number; on a finite one it is
    [createRatingStars] above. *)
Definition createRatingStars_number (rating : Number) : option ustring :=
  let fullStars := floor rating in
  let hasHalfStar := at_least (remainder_1 rating) (1 # 2) in
  let emptyStars :=
    minus (minus (Finite 5) fullStars) (Finite (if hasHalfStar then 1 else 0)) in
  match repeat_number [BLACK_STAR] fullStars with
  | None => None
  | Some full =>
      match repeat_number [WHITE_STAR] emptyStars with
      | None => None
      | Some empty =>
          Some (full ++ (if hasHalfStar then [WHITE_STAR] else []) ++ empty)%list
      end
  end.

(** [text.substring(0, maxLength).trim() + '...'] unless the text fits. *)
Definition truncateText (text : ustring) (maxLength : Z) : ustring :=
  if Z.of_nat (length text) <=? maxLength then text
  else (UStr.trim (UStr.substring text 0 maxLength) ++ UStr.of_string "...")%list.

End ProductRenderer.

(** ** The functions of the page *)

Module Page.

(** The global [contadorCarrinho] and the text of the element
    [numero-carrinho], [None] when the page has no such element. *)
Record Cart := mkCart { contadorCarrinho : Z; numero_carrinho : option string }.

Definition atualizarContadorCarrinho (c : Cart) : Cart :=
  match numero_carrinho c with
  | Some _ =>
      {| contadorCarrinho := contadorCarrinho c;
         numero_carrinho := Some (number_to_string (contadorCarrinho c)) |}
  | None => c
  end.

(** [confirmacao] is the answer to the [confirm] dialog. *)
Definition mostrarConfirmacaoCompra (confirmacao : bool) (c : Cart) : Cart :=
  if confirmacao then c
  else
    atualizarContadorCarrinho
      {| contadorCarrinho := contadorCarrinho c - 1;
         numero_carrinho := numero_carrinho c |}.

(** A click on a purchase button: whether the card of the button has a
    heading and a price element, and the answer to the dialog. *)
Record Click := mkClick { has_h3 : bool; has_preco : bool; confirmacao : bool }.

(** The click listener of [configurarBotoesCompra].  Without a heading or
    a price element the listener throws a [TypeError] on the [null] it reads
    [textContent] from, before it touches the counter. *)
Definition click_compra (c : Cart) (ev : Click) : Cart :=
  if has_h3 ev && has_preco ev then
    mostrarConfirmacaoCompra (confirmacao ev)
      (atualizarContadorCarrinho
         {| contadorCarrinho := contadorCarrinho c + 1;
            numero_carrinho := numero_carrinho c |})
  else c.

(** The cart after [adicionarContadorCarrinho]; [header] tells whether the
    page has a [header] element to hold the counter. *)
Definition cart_inicial (header : bool) : Cart :=
  {| contadorCarrinho := 0;
     numero_carrinho := if header then Some "0" else None |}.

(** What [validarPesquisa] shows in its [alert]. *)
Inductive Alerta :=
| DigiteAlgo
| DigiteTresCaracteres
| Encontrados (jogos : list string)
| NenhumJogo.

Definition jogos : list string :=
  ["FIFA 24"; "Call of Duty"; "Minecraft"; "GTA V"; "Fortnite"; "Cyberpunk 2077"].

Section Pesquisa.

(** [String.prototype.toLowerCase], the engine's. *)
Variable toLowerCase : list N -> list N.

Definition validarPesquisa (termo : list N) : Alerta :=
  match UStr.trim termo with
  | [] => DigiteAlgo
  | _ :: _ =>
      if (length termo <? 3)%nat then DigiteTresCaracteres
      else
        let jogosEncontrados :=
          List.filter
            (fun jogo =>
               UStr.includes (toLowerCase (UStr.of_string jogo)) (toLowerCase termo))
            jogos in
        if (0 <? length jogosEncontrados)%nat then Encontrados jogosEncontrados
        else NenhumJogo
  end.

End Pesquisa.

End Page.

(** ** class GameStoreManager: the cart, its storage, and the contact form *)

Module GameStoreManager.

(** [localStorage]: its items, and whether the browser makes every call
    throw (storage disabled or full). *)
Record Storage := mkStorage { items : gmap string (list N); throws : bool }.

Definition storage_error : JsError := mkError Error "The operation is insecure.".

Definition getItem (k : string) (s : Storage) : Completion (option (list N)) :=
  if throws s then Throw storage_error else Return (items s !! k).

Definition setItem (k : string) (v : list N) (s : Storage) : Completion unit * Storage :=
  if throws s then (Throw storage_error, s)
  else (Return tt, {| items := <[k := v]> (items s); throws := throws s |}).

Definition removeItem (k : string) (s : Storage) : Completion unit * Storage :=
  if throws s then (Throw storage_error, s)
  else (Return tt, {| items := delete k (items s); throws := throws s |}).

(** The decimal digit of a code unit. *)
Definition digit_of (c : N) : option (Decimal.uint -> Decimal.uint) :=
  if (c =? 48)%N then Some Decimal.D0
  else if (c =? 49)%N then Some Decimal.D1
  else if (c =? 50)%N then Some Decimal.D2
  else if (c =? 51)%N then Some Decimal.D3
  else if (c =? 52)%N then Some Decimal.D4
  else if (c =? 53)%N then Some Decimal.D5
  else if (c =? 54)%N then Some Decimal.D6
  else if (c =? 55)%N then Some Decimal.D7
  else if (c =? 56)%N then Some Decimal.D8
  else if (c =? 57)%N then Some Decimal.D9
  else None.

(** The longest prefix of decimal digits. *)
Fixpoint digits (s : list N) : Decimal.uint :=
  match s with
  | [] => Decimal.Nil
  | c :: rest =>
      match digit_of c with
      | Some digit => digit (digits rest)
      | None => Decimal.Nil
      end
  end.

(** [parseInt(s, 10)], [None] for [NaN]: leading white space is skipped,
    then a sign, then the digits are read as far as they go.  The result is
    exact for the integers a number represents exactly. *)
Definition parseInt (s : list N) : option Z :=
  let s := UStr.trim_start s in
  let signed :=
    match s with
    | c :: rest =>
        if (c =? 45)%N then (true, rest)
        else if (c =? 43)%N then (false, rest)
        else (false, s)
    | [] => (false, [])
    end in
  match digits (snd signed) with
  | Decimal.Nil => None
  | d => Some (if fst signed then - Z.of_uint d else Z.of_uint d)
  end.

(** The counter of the cart and the text of the element that shows it,
    [None] when the page has no such element. *)
Record t := mk { cartCounter : Z; cartNumber : option string }.

Definition updateCartDisplay (m : t) : t :=
  match cartNumber m with
  | Some _ =>
      {| cartCounter := cartCounter m;
         cartNumber := Some (number_to_string (cartCounter m)) |}
  | None => m
  end.

Definition saveCartToStorage (m : t) (s : Storage) : Storage :=
  snd (setItem "gamestore_cart_count"
         (UStr.of_string (number_to_string (cartCounter m))) s).

Definition addToCart (m : t) (s : Storage) : t * Storage :=
  let m := updateCartDisplay
             {| cartCounter := cartCounter m + 1; cartNumber := cartNumber m |} in
  (m, saveCartToStorage m s).

Definition loadCartFromStorage (m : t) (s : Storage) : t :=
  match getItem "gamestore_cart_count" s with
  | Throw _ | Pending => m
  | Return None => m
  | Return (Some []) => m
  | Return (Some savedCount) =>
      updateCartDisplay
        {| cartCounter := match parseInt savedCount with
                          | Some n => n
                          | None => 0
                          end;
           cartNumber := cartNumber m |}
  end.

(** [clearAllData]: when a [removeItem] throws, the counter is not reset. *)
Definition clearAllData (m : t) (s : Storage) : t * Storage :=
  match removeItem "gamestore_cart_count" s with
  | (Throw _, s1) | (Pending, s1) => (m, s1)
  | (Return _, s1) =>
      match removeItem "gamestore_theme" s1 with
      | (Throw _, s2) | (Pending, s2) => (m, s2)
      | (Return _, s2) =>
          (updateCartDisplay {| cartCounter := 0; cartNumber := cartNumber m |}, s2)
      end
  end.

(** *** Regular expressions, as far as [isValidEmail] needs them

    [regex.test(s)] for a pattern anchored at both ends is membership of
    the whole string in the language of the pattern; it is decided here by
    derivatives. *)
Inductive regex :=
| Void
| Eps
| Class (p : N -> bool)
| Seq (r1 r2 : regex)
| Alt (r1 r2 : regex)
| Star (r : regex).

Definition Plus (r : regex) : regex := Seq r (Star r).

Fixpoint nullable (r : regex) : bool :=
  match r with
  | Void => false
  | Eps => true
  | Class _ => false
  | Seq r1 r2 => nullable r1 && nullable r2
  | Alt r1 r2 => nullable r1 || nullable r2
  | Star _ => true
  end.

Fixpoint deriv (c : N) (r : regex) : regex :=
  match r with
  | Void => Void
  | Eps => Void
  | Class p => if p c then Eps else Void
  | Seq r1 r2 =>
      if nullable r1 then Alt (Seq (deriv c r1) r2) (deriv c r2)
      else Seq (deriv c r1) r2
  | Alt r1 r2 => Alt (deriv c r1) (deriv c r2)
  | Star r1 => Seq (deriv c r1) (Star r1)
  end.

Fixpoint test (r : regex) (s : list N) : bool :=
  match s with
  | [] => nullable r
  | c :: rest => test (deriv c r) rest
  end.

(** The strings a pattern matches from end to end. *)
Inductive lang : regex -> list N -> Prop :=
| lang_eps : lang Eps []
| lang_class p c : p c = true -> lang (Class p) [c]
| lang_seq r1 r2 s1 s2 : lang r1 s1 -> lang r2 s2 -> lang (Seq r1 r2) (s1 ++ s2)
| lang_alt_l r1 r2 s : lang r1 s -> lang (Alt r1 r2) s
| lang_alt_r r1 r2 s : lang r2 s -> lang (Alt r1 r2) s
| lang_star_nil r : lang (Star r) []
| lang_star_cons r s1 s2 : lang r s1 -> lang (Star r) s2 -> lang (Star r) (s1 ++ s2).

(** [[^\s@]]: neither white space nor "@". *)
Definition not_space_or_at (c : N) : bool :=
  negb (UStr.is_white_space c || (c =? 64)%N).

(** [/^[^\s@]+@[^\s@]+\.[^\s@]+$/]. *)
Definition emailRegex : regex :=
  Seq (Plus (Class not_space_or_at))
    (Seq (Class (N.eqb 64))
       (Seq (Plus (Class not_space_or_at))
          (Seq (Class (N.eqb 46))
             (Plus (Class not_space_or_at))))).

Definition isValidEmail (email : list N) : bool := test emailRegex email.

(** The fields of the contact form, as [extractFormData] returns them. *)
Record FormData := mkForm { name : list N; email : list N; message : list N }.

(** The notification [validateFormData] shows when it returns [false]. *)
Inductive FormError := PreenchaNome | EmailInvalido | MensagemCurta.

(** [inl tt] stands for [true], [inr e] for [false] after notification [e]. *)
Definition validateFormData (data : FormData) : unit + FormError :=
  match name data with
  | [] => inr PreenchaNome
  | _ :: _ =>
      if negb (isValidEmail (email data)) then inr EmailInvalido
      else if (length (message data) <? 10)%nat then inr MensagemCurta
      else inl tt
  end.

(** The addresses the pattern describes: a local part, "@", a domain, ".",
    and a last part, the three parts not empty and free of white space and
    of "@". *)
Definition address_shaped (address : list N) : Prop :=
  exists local domain top,
    address = (local ++ [64%N] ++ domain ++ [46%N] ++ top)%list
    /\ local <> [] /\ domain <> [] /\ top <> []
    /\ List.Forall (fun c => not_space_or_at c = true) local
    /\ List.Forall (fun c => not_space_or_at c = true) domain
    /\ List.Forall (fun c => not_space_or_at c = true) top.

End GameStoreManager.

(** ** The vocabulary of the specification *)

(** The error kinds of the specification.  [makeRequest] has no error
    classes of its own: every failure is rethrown as an [Error] whose message
    quotes the message of the error caught.  The kind of a failure is read
    off that caught error: inside the [try] block an [AbortError] can only
    come from the timer, an [Error] only from the status test, a
    [SyntaxError] only from [response.json()], and a [TypeError] only from
    the transport. *)
Inductive ErrorKind := Timeout | HttpStatus | Malformed | Network.

Definition kind_of (e : JsError) : ErrorKind :=
  match name e with
  | AbortError => Timeout
  | Error => HttpStatus
  | SyntaxError => Malformed
  | TypeError => Network
  end.

(** The kind of the failure of a call of [makeRequest], [None] when the
    call does not fail. *)
Definition failure_kind (url : string) (options : RequestInit)
    (env : Env) (st : State) : option ErrorKind :=
  match cached (cacheKey url options) (now_read env) (cache (this st)) with
  | Some _ => None
  | None =>
      match fst (makeRequest_try url options env st) with
      | Return _ => None
      | Throw cause => Some (kind_of cause)
      | Pending => None
      end
  end.

(** The number of requests a step hands to [fetch]. *)
Definition requests_issued (before after : State) : Z :=
  Z.of_nat (length (network_log after)) - Z.of_nat (length (network_log before)).

(** The age of the entry under [key] at time [now] is below the freshness
    window. *)
Definition fresh_at (key : string) (now : Z) (c : JsMap CacheEntry) : Prop :=
  exists e, map_get key c = Some e /\ now - timestamp e < 300000.

(** The entry under [key] is older than the freshness window. *)
Definition stale_at (key : string) (now : Z) (c : JsMap CacheEntry) : Prop :=
  exists e, map_get key c = Some e /\ 300000 <= now - timestamp e.

(** At most one entry per fingerprint. *)
Definition unique_keys (c : JsMap CacheEntry) : Prop :=
  forall key, (length (entries_of key c) <= 1)%nat.

(** The operations on the cache, and the states they lead to. *)
Inductive Op :=
| OpMakeRequest (url : string) (options : RequestInit) (env : Env)
| OpFetchProducts (limit : Z) (env : Env)
| OpFetchAllProducts (env : Env)
| OpFetchProductsByCategory (category : string) (env : Env)
| OpFetchCategories (env : Env)
| OpClearCache.

Definition run_op (st : State) (op : Op) : State :=
  match op with
  | OpMakeRequest url options env => snd (makeRequest url options env st)
  | OpFetchProducts limit env => snd (fetchProducts limit env st)
  | OpFetchAllProducts env => snd (fetchAllProducts env st)
  | OpFetchProductsByCategory category env => snd (fetchProductsByCategory category env st)
  | OpFetchCategories env => snd (fetchCategories env st)
  | OpClearCache => DataLoader.clearCache st
  end.

Definition run (ops : list Op) (st : State) : State := fold_left run_op ops st.

(** The state right after construction. *)
Definition constructed : State := {| this := ApiManager.initial; network_log := [] |}.

(** Concrete calls used in the examples below. *)
Definition products_url : string := "https://fakestoreapi.com/products?limit=6".

Definition catalog : list JSON :=
  [JObject [("id", JNumber 1); ("title", JString "Backpack"); ("price", JNumber (2199 # 20))];
   JObject [("id", JNumber 2); ("title", JString "T-Shirt"); ("price", JNumber (223 # 10))]].

(** The catalog arrives after 120 ms with status 200. *)
Definition env_ok : Env :=
  mkEnv 1000 (mkExchange (Some 120) (Responds (mkResponse 200 (Parses (JArray catalog)))))
        "signal is aborted without reason" 1120 30.

(** A later call; the server answers 404. *)
Definition env_404 : Env :=
  mkEnv 2000 (mkExchange (Some 80) (Responds (mkResponse 404 (Parses (JObject [])))))
        "signal is aborted without reason" 2080 30.

(** The transport fails: [fetch] rejects with a [TypeError]. *)
Definition env_offline : Env :=
  mkEnv 2000 (mkExchange (Some 15) (Fails "Failed to fetch"))
        "signal is aborted without reason" 2015 30.

(** The server answers after 12 s. *)
Definition env_slow : Env :=
  mkEnv 2000 (mkExchange (Some 12000) (Responds (mkResponse 200 (Parses (JArray catalog)))))
        "signal is aborted without reason" 14000 30.

(** The status arrives after 4 ms; reading the body takes a minute. *)
Definition env_slow_body : Env :=
  mkEnv 2000 (mkExchange (Some 4) (Responds (mkResponse 200 (Parses (JArray catalog)))))
        "signal is aborted without reason" 62004 60000.

(** The status arrives after 4 ms; the body never does. *)
Definition env_stalled_body : Env :=
  mkEnv 2000 (mkExchange (Some 4) (Responds (mkResponse 200 NeverSettles)))
        "signal is aborted without reason" 2004 0.

(** A call six minutes after [env_ok]; a shorter catalog arrives. *)
Definition env_later : Env :=
  mkEnv 361120 (mkExchange (Some 90) (Responds (mkResponse 200 (Parses (JArray [])))))
        "signal is aborted without reason" 361210 30.

(** ** Lemmas on strings *)

Lemma string_length_append (s t : string) :
  String.length (s +:+ t) = (String.length s + String.length t)%nat.
Proof. induction s as [|c s IH]; simpl; [reflexivity | now rewrite IH]. Qed.

Lemma string_append_inv_tail (s1 s2 t : string) :
  s1 +:+ t = s2 +:+ t -> s1 = s2.
Proof.
  revert s2. induction s1 as [|c s1 IH]; intros [|c2 s2] H; simpl in H.
  - reflexivity.
  - apply (f_equal String.length) in H.
    rewrite !string_length_append in H. simpl in H. lia.
  - apply (f_equal String.length) in H.
    rewrite !string_length_append in H. simpl in H. lia.
  - injection H as -> H. f_equal. now apply IH.
Qed.

Lemma string_append_inv_head (p s1 s2 : string) :
  p +:+ s1 = p +:+ s2 -> s1 = s2.
Proof.
  induction p as [|c p IH]; simpl; intros H; [exact H|].
  injection H as H. now apply IH.
Qed.

Lemma string_append_assoc (a b c : string) :
  (a +:+ b) +:+ c = a +:+ (b +:+ c).
Proof.
  induction a as [|x a IH]; [reflexivity|].
  change (String x ((a +:+ b) +:+ c) = String x (a +:+ (b +:+ c))).
  now rewrite IH.
Qed.

(** ** Lemmas on [JSON.stringify] *)

Lemma unquote_quote_char (c : ascii) (rest : string) :
  unquote_char (quote_char c +:+ rest) = Some (c, rest).
Proof. destruct c as [[] [] [] [] [] [] [] []]; reflexivity. Qed.

Lemma quote_chars_unique (s1 s2 r1 r2 : string) :
  quote_chars s1 +:+ String dquote r1 = quote_chars s2 +:+ String dquote r2 ->
  s1 = s2 /\ r1 = r2.
Proof.
  revert s2. induction s1 as [|c1 s1 IH]; intros [|c2 s2] H.
  - simpl in H. injection H as ->. now split.
  - exfalso. apply (f_equal unquote_char) in H.
    change (quote_chars (String c2 s2) +:+ String dquote r2)
      with ((quote_char c2 +:+ quote_chars s2) +:+ String dquote r2) in H.
    rewrite string_append_assoc, unquote_quote_char in H. discriminate H.
  - exfalso. apply (f_equal unquote_char) in H.
    change (quote_chars (String c1 s1) +:+ String dquote r1)
      with ((quote_char c1 +:+ quote_chars s1) +:+ String dquote r1) in H.
    rewrite string_append_assoc, unquote_quote_char in H. discriminate H.
  - change (quote_chars (String c1 s1) +:+ String dquote r1)
      with ((quote_char c1 +:+ quote_chars s1) +:+ String dquote r1) in H.
    change (quote_chars (String c2 s2) +:+ String dquote r2)
      with ((quote_char c2 +:+ quote_chars s2) +:+ String dquote r2) in H.
    rewrite !string_append_assoc in H.
    apply (f_equal unquote_char) in H. rewrite !unquote_quote_char in H.
    injection H as -> H. destruct (IH _ H) as [-> ->]. now split.
Qed.

Lemma quote_unique (s1 s2 r1 r2 : string) :
  quote s1 +:+ r1 = quote s2 +:+ r2 -> s1 = s2 /\ r1 = r2.
Proof.
  unfold quote.
  change (String dquote (quote_chars s1 +:+ String dquote "") +:+ r1)
    with (String dquote ((quote_chars s1 +:+ String dquote "") +:+ r1)).
  change (String dquote (quote_chars s2 +:+ String dquote "") +:+ r2)
    with (String dquote ((quote_chars s2 +:+ String dquote "") +:+ r2)).
  rewrite !string_append_assoc. intros H. injection H as H.
  now apply quote_chars_unique.
Qed.

(** Induction on a value, with the hypothesis on every element of an array
    and on every property value of an object. *)
Lemma OptionValue_induction (P : OptionValue -> Prop) :
  P ONull ->
  (forall b, P (OBool b)) ->
  (forall s, P (OString s)) ->
  (forall items, List.Forall P items -> P (OArray items)) ->
  (forall fields,
      List.Forall (fun kv => P (snd kv)) fields -> P (OObject fields)) ->
  forall v, P v.
Proof.
  intros Hnull Hbool Hstring Harray Hobject.
  fix IH 1. intros [ | b | s | items | fields].
  - exact Hnull.
  - apply Hbool.
  - apply Hstring.
  - apply Harray. induction items as [|x items IHitems]; constructor.
    + apply IH.
    + exact IHitems.
  - apply Hobject. induction fields as [|[k x] fields IHfields]; constructor.
    + apply IH.
    + exact IHfields.
Qed.

Lemma concat_unique {A : Type} (f : A -> string) (close : ascii)
      (l1 : list A) :
  List.Forall (uniquely_read f) l1 ->
  (forall a r r', f a +:+ r <> String close r') ->
  close <> ","%char ->
  forall l2 r1 r2,
    String.concat "," (List.map f l1) +:+ String close r1
    = String.concat "," (List.map f l2) +:+ String close r2 ->
    l1 = l2 /\ r1 = r2.
Proof.
  intros Hall Hhead Hclose.
  assert (Hcons : forall a l r,
             String.concat "," (List.map f (a :: l)) +:+ String close r
             = f a +:+ match l with
                       | [] => String close r
                       | _ => String "," (String.concat "," (List.map f l)
                                          +:+ String close r)
                       end).
  { intros a [|b l] r; [reflexivity|].
    change (String.concat "," (List.map f (a :: b :: l)))
      with (f a +:+ String "," (String.concat "," (List.map f (b :: l)))).
    now rewrite string_append_assoc. }
  induction Hall as [|a1 l1 Ha1 Hall IH]; intros [|a2 l2] r1 r2 H.
  - simpl in H. injection H as ->. now split.
  - exfalso. rewrite (Hcons a2 l2 r2) in H. simpl in H.
    symmetry in H. exact (Hhead _ _ _ H).
  - exfalso. rewrite (Hcons a1 l1 r1) in H. simpl in H.
    exact (Hhead _ _ _ H).
  - rewrite (Hcons a1 l1 r1), (Hcons a2 l2 r2) in H.
    destruct (Ha1 _ _ _ H) as [-> Hrest].
    destruct l1 as [|b1 l1], l2 as [|b2 l2].
    + injection Hrest as ->. now split.
    + exfalso. injection Hrest as Hc _. now apply Hclose.
    + exfalso. injection Hrest as Hc _. now apply Hclose.
    + injection Hrest as Hrest.
      destruct (IH (b2 :: l2) r1 r2 Hrest) as [E ->]. rewrite E. now split.
Qed.

Lemma render_head (v : OptionValue) (r : string) :
  exists c rest,
    render v +:+ r = String c rest
    /\ (c = "n" \/ c = "t" \/ c = "f" \/ c = dquote \/ c = "[" \/ c = "{")%char.
Proof.
  destruct v as [ | [] | s | items | fields]; eexists _, _;
    (split; [reflexivity|]); tauto.
Qed.

Lemma render_unique (v : OptionValue) : uniquely_read render v.
Proof.
  induction v as [ | b | s | items IH | fields IH]
    using OptionValue_induction; intros v' r r' H.
  - destruct v' as [ | [] | s' | items' | fields']; try discriminate H.
    apply (string_append_inv_head "null") in H. now split.
  - destruct b, v' as [ | [] | s' | items' | fields']; try discriminate H;
      [apply (string_append_inv_head "true") in H
      |apply (string_append_inv_head "false") in H]; now split.
  - destruct v' as [ | [] | s' | items' | fields']; try discriminate H.
    apply quote_unique in H. destruct H as [-> ->]. now split.
  - destruct v' as [ | [] | s' | items' | fields']; try discriminate H.
    change (String "[" ((String.concat "," (List.map render items)
                         +:+ "]") +:+ r)
            = String "[" ((String.concat "," (List.map render items')
                           +:+ "]") +:+ r')) in H.
    injection H as H. rewrite !string_append_assoc in H.
    assert (Hhead : forall a s0 s1, render a +:+ s0 <> String "]" s1).
    { intros a s0 s1 Ha. destruct (render_head a s0) as (c & rest & E & Hc).
      rewrite E in Ha. injection Ha as -> _.
      repeat destruct Hc as [Hc|Hc]; discriminate Hc. }
    assert (Hclose : "]"%char <> ","%char) by discriminate.
    destruct (concat_unique render "]" items IH Hhead Hclose _ _ _ H)
      as [-> ->].
    now split.
  - destruct v' as [ | [] | s' | items' | fields']; try discriminate H.
    set (member := fun kv : string * OptionValue =>
                     quote (fst kv) +:+ ":" +:+ render (snd kv)) in *.
    change (String "{" ((String.concat "," (List.map member fields)
                         +:+ "}") +:+ r)
            = String "{" ((String.concat "," (List.map member fields')
                           +:+ "}") +:+ r')) in H.
    injection H as H. rewrite !string_append_assoc in H.
    assert (Hall : List.Forall (uniquely_read member) fields).
    { apply List.Forall_impl with (2 := IH).
      intros [k x] Hx [k' x'] s0 s1 Hm. unfold member in Hm. simpl in Hm.
      rewrite !string_append_assoc in Hm.
      apply quote_unique in Hm. destruct Hm as [-> Hm].
      injection Hm as Hm. simpl in Hx.
      destruct (Hx _ _ _ Hm) as [E1 E2]. subst. now split. }
    assert (Hhead : forall a s0 s1, member a +:+ s0 <> String "}" s1).
    { intros [k x] s0 s1 Ha. discriminate Ha. }
    assert (Hclose : "}"%char <> ","%char) by discriminate.
    destruct (concat_unique member "}" fields Hall Hhead Hclose _ _ _ H)
      as [-> ->].
    now split.
Qed.

Lemma string_append_empty (s : string) : s +:+ "" = s.
Proof.
  induction s as [|c s IH]; [reflexivity|].
  change (String c (s +:+ "") = String c s). now rewrite IH.
Qed.

Lemma render_inj (v1 v2 : OptionValue) : render v1 = render v2 -> v1 = v2.
Proof.
  intros H. apply (render_unique v1 v2 "" "").
  now rewrite !string_append_empty.
Qed.

Lemma own_property_order_index_free {A : Type} (fields : list (string * A)) :
  List.forallb
    (fun kv => match array_index (fst kv) with
               | Some _ => false
               | None => true
               end) fields = true ->
  own_property_order fields = fields.
Proof.
  intros H. unfold own_property_order.
  assert (E : index_properties fields = []).
  { induction fields as [|[k x] fields IH]; [reflexivity|].
    simpl in H |- *. destruct (array_index k); [discriminate H|].
    now apply IH. }
  rewrite E. simpl. clear E.
  induction fields as [|[k x] fields IH]; [reflexivity|].
  simpl in H |- *. destruct (array_index k); [discriminate H|].
  f_equal. now apply IH.
Qed.

Lemma enumerate_index_free (v : OptionValue) :
  index_free v = true -> enumerate v = v.
Proof.
  induction v as [ | b | s | items IH | fields IH]
    using OptionValue_induction; intros H; try reflexivity.
  - simpl in H |- *. f_equal.
    induction IH as [|x items Hx _ IHitems]; [reflexivity|].
    simpl in H |- *. apply andb_prop in H. destruct H as [H1 H2].
    now rewrite (Hx H1), (IHitems H2).
  - simpl in H |- *. f_equal.
    assert (E : List.map (fun kv => (fst kv, enumerate (snd kv))) fields
                = fields).
    { induction IH as [|[k x] fields Hx _ IHfields]; [reflexivity|].
      simpl in H |- *. destruct (array_index k); [discriminate H|].
      apply andb_prop in H. destruct H as [H1 H2]. simpl in Hx.
      now rewrite (Hx H1), (IHfields H2). }
    rewrite E. apply own_property_order_index_free.
    clear E IH. induction fields as [|[k x] fields IHfields]; [reflexivity|].
    simpl in H |- *. destruct (array_index k); [discriminate H|].
    apply andb_prop in H. now apply IHfields.
Qed.

Lemma JSON_stringify_inj (v1 v2 : OptionValue) :
  JSON_stringify v1 = JSON_stringify v2 <-> enumerate v1 = enumerate v2.
Proof.
  unfold JSON_stringify. split; [apply render_inj | now intros ->].
Qed.

(** ** Lemmas on [Map] *)

Section JsMapFacts.
Context {V : Type}.
Implicit Types (m : JsMap V) (k : string) (v : V).

Lemma map_has_get k m : map_has k m = true <-> exists v, map_get k m = Some v.
Proof.
  induction m as [|[k' v'] m IH]; simpl.
  - split; [discriminate | intros [v H]; discriminate].
  - destruct (String.eqb k k'); [split; eauto | exact IH].
Qed.

Lemma map_has_false_get k m : map_has k m = false <-> map_get k m = None.
Proof.
  induction m as [|[k' v'] m IH]; simpl.
  - split; reflexivity.
  - destruct (String.eqb k k'); [split; discriminate | exact IH].
Qed.

Lemma map_get_set_eq k v m : map_get k (map_set k v m) = Some v.
Proof.
  induction m as [|[k' v'] m IH]; simpl.
  - now rewrite String.eqb_refl.
  - destruct (String.eqb k k') eqn:E; simpl; rewrite E; [reflexivity | exact IH].
Qed.

Lemma map_get_set_ne k k0 v m : k0 <> k -> map_get k0 (map_set k v m) = map_get k0 m.
Proof.
  intros Hne. induction m as [|[k' v'] m IH]; simpl.
  - destruct (String.eqb_spec k0 k); [contradiction | reflexivity].
  - destruct (String.eqb_spec k k') as [->|Hk]; simpl.
    + destruct (String.eqb_spec k0 k'); [contradiction | reflexivity].
    + destruct (String.eqb k0 k'); [reflexivity | exact IH].
Qed.

Lemma entries_of_nil_get k m : entries_of k m = [] <-> map_get k m = None.
Proof.
  unfold entries_of. induction m as [|[k' v'] m IH]; simpl.
  - split; reflexivity.
  - destruct (String.eqb k k'); simpl; [split; discriminate | exact IH].
Qed.

Lemma entries_of_head k m : head (entries_of k m) = map_get k m.
Proof.
  unfold entries_of. induction m as [|[k' v'] m IH]; simpl.
  - reflexivity.
  - destruct (String.eqb k k'); simpl; [reflexivity | exact IH].
Qed.

(** [set] overwrites the first entry under the key and keeps the rest. *)
Lemma entries_of_set_eq k v m :
  entries_of k (map_set k v m) = v :: tail (entries_of k m).
Proof.
  unfold entries_of. induction m as [|[k' v'] m IH]; simpl.
  - now rewrite String.eqb_refl.
  - destruct (String.eqb k k') eqn:E; simpl; rewrite E; simpl.
    + reflexivity.
    + exact IH.
Qed.

Lemma entries_of_set_ne k k0 v m :
  k0 <> k -> entries_of k0 (map_set k v m) = entries_of k0 m.
Proof.
  intros Hne. unfold entries_of. induction m as [|[k' v'] m IH]; simpl.
  - destruct (String.eqb_spec k0 k); [contradiction | reflexivity].
  - destruct (String.eqb_spec k k') as [->|Hk]; simpl.
    + destruct (String.eqb_spec k0 k'); [contradiction | reflexivity].
    + destruct (String.eqb k0 k'); simpl; [f_equal|]; exact IH.
Qed.

Lemma entries_of_set_length k k0 v m :
  (length (entries_of k0 m) <= 1)%nat ->
  (length (entries_of k0 (map_set k v m)) <= 1)%nat.
Proof.
  intros H. destruct (String.eqb_spec k0 k) as [->|Hne].
  - rewrite entries_of_set_eq.
    destruct (entries_of k m) as [|x [|y l]]; simpl in *; lia.
  - now rewrite entries_of_set_ne.
Qed.

(** A key that holds one entry holds exactly the new one after [set]. *)
Lemma entries_of_set_unique k v m :
  (length (entries_of k m) <= 1)%nat -> entries_of k (map_set k v m) = [v].
Proof.
  intros H. rewrite entries_of_set_eq.
  destruct (entries_of k m) as [|x [|y l]]; simpl in *; try reflexivity; lia.
Qed.
End JsMapFacts.

(** ** Lemmas on [makeRequest] *)

Lemma cached_Some key now c d :
  cached key now c = Some d <->
  exists e, map_get key c = Some e /\ now - timestamp e < 300000 /\ d = data e.
Proof.
  unfold cached. split.
  - destruct (map_has key c); [|discriminate].
    destruct (map_get key c) as [e|]; [|discriminate].
    destruct (Z.ltb_spec (now - timestamp e) 300000); [|discriminate].
    intros [= <-]. eauto.
  - intros (e & Hget & Hage & ->).
    assert (Hhas : map_has key c = true) by (apply map_has_get; eauto).
    rewrite Hhas, Hget.
    destruct (Z.ltb_spec (now - timestamp e) 300000); [reflexivity | lia].
Qed.

Lemma cached_None key now c :
  cached key now c = None <->
  map_get key c = None \/
  exists e, map_get key c = Some e /\ 300000 <= now - timestamp e.
Proof.
  unfold cached. split.
  - destruct (map_has key c) eqn:Hhas.
    + destruct (map_get key c) as [e|]; [|now left].
      destruct (Z.ltb_spec (now - timestamp e) 300000); [discriminate|].
      intros _. right. eauto.
    + intros _. left. now apply map_has_false_get.
  - intros [Hnone | (e & Hget & Hage)].
    + rewrite Hnone. now destruct (map_has key c).
    + rewrite Hget. destruct (map_has key c); [|reflexivity].
      destruct (Z.ltb_spec (now - timestamp e) 300000); [lia | reflexivity].
Qed.

(** The [try] block hands exactly one request to [fetch]. *)
Lemma makeRequest_try_log url options env st :
  network_log (snd (makeRequest_try url options env st))
  = mkRequest url options :: network_log st.
Proof.
  unfold makeRequest_try. simpl.
  destruct (fetch _ _ _) as [r|e|]; try reflexivity.
  destruct (ok r); simpl; [|reflexivity].
  destruct (json r); reflexivity.
Qed.

(** It writes the cache only when it returns, and then one [set]. *)
Lemma makeRequest_try_cache url options env st :
  cache (this (snd (makeRequest_try url options env st)))
  = match fst (makeRequest_try url options env st) with
    | Return d =>
        map_set (cacheKey url options) (mkEntry d (now_write env)) (cache (this st))
    | Throw _ | Pending => cache (this st)
    end.
Proof.
  unfold makeRequest_try. simpl.
  destruct (fetch _ _ _) as [r|e|]; try reflexivity.
  destruct (ok r); simpl; [|reflexivity].
  destruct (json r); reflexivity.
Qed.

Lemma makeRequest_try_fields url options env st :
  requestTimeout (this (snd (makeRequest_try url options env st))) = requestTimeout (this st)
  /\ baseUrls (this (snd (makeRequest_try url options env st))) = baseUrls (this st).
Proof.
  unfold makeRequest_try. simpl.
  destruct (fetch _ _ _) as [r|e|]; try (now split).
  destruct (ok r); simpl; [|now split].
  destruct (json r); now split.
Qed.

(** What the [try] block settles to, by what the network does. *)
Lemma makeRequest_try_result url options env st :
  fst (makeRequest_try url options env st)
  = match fetch (requestTimeout (this st)) (abort_message env) (exchange env) with
    | Throw e => Throw e
    | Pending => Pending
    | Return r =>
        if ok r then json r
        else Throw (mkError Error
                      ("HTTP error! status: " +:+ number_to_string (status r)))
    end.
Proof.
  unfold makeRequest_try. simpl.
  destruct (fetch _ _ _) as [r|e|]; try reflexivity.
  destruct (ok r); simpl; [|reflexivity].
  destruct (json r); reflexivity.
Qed.

(** A call that misses the cache is the [try] block with its failure
    rewrapped; state changes are those of the [try] block. *)
Lemma makeRequest_miss url options env st :
  cached (cacheKey url options) (now_read env) (cache (this st)) = None ->
  snd (makeRequest url options env st) = snd (makeRequest_try url options env st)
  /\ fst (makeRequest url options env st)
     = match fst (makeRequest_try url options env st) with
       | Return d => Return d
       | Throw cause =>
           Throw (mkError Error ("Falha ao carregar dados: " +:+ message cause))
       | Pending => Pending
       end.
Proof.
  intros Hmiss. unfold makeRequest. rewrite Hmiss.
  destruct (makeRequest_try url options env st) as [[d|cause|] st']; simpl; auto.
Qed.

Lemma makeRequest_hit url options env st d :
  cached (cacheKey url options) (now_read env) (cache (this st)) = Some d ->
  makeRequest url options env st = (Return d, st).
Proof. intros Hhit. unfold makeRequest. now rewrite Hhit. Qed.

(** A call hands at most one request to [fetch]. *)
Lemma makeRequest_requests url options env st :
  requests_issued st (snd (makeRequest url options env st))
  = match cached (cacheKey url options) (now_read env) (cache (this st)) with
    | Some _ => 0
    | None => 1
    end.
Proof.
  unfold requests_issued.
  destruct (cached _ _ _) as [d|] eqn:Hc.
  - rewrite (makeRequest_hit _ _ _ _ _ Hc). simpl. lia.
  - destruct (makeRequest_miss _ _ _ _ Hc) as [-> _].
    rewrite makeRequest_try_log. simpl length. lia.
Qed.

(** A failed call leaves the cache as it was. *)
Lemma makeRequest_throw_cache url options env st e :
  fst (makeRequest url options env st) = Throw e ->
  cache (this (snd (makeRequest url options env st))) = cache (this st).
Proof.
  destruct (cached (cacheKey url options) (now_read env) (cache (this st))) as [d|] eqn:Hc.
  - rewrite (makeRequest_hit _ _ _ _ _ Hc). reflexivity.
  - destruct (makeRequest_miss _ _ _ _ Hc) as [-> ->].
    rewrite makeRequest_try_cache.
    destruct (fst (makeRequest_try url options env st));
      [discriminate | reflexivity | reflexivity].
Qed.

Lemma makeRequest_fields url options env st :
  requestTimeout (this (snd (makeRequest url options env st))) = requestTimeout (this st)
  /\ baseUrls (this (snd (makeRequest url options env st))) = baseUrls (this st).
Proof.
  destruct (cached (cacheKey url options) (now_read env) (cache (this st))) as [d|] eqn:Hc.
  - rewrite (makeRequest_hit _ _ _ _ _ Hc). now split.
  - destruct (makeRequest_miss _ _ _ _ Hc) as [-> _]. apply makeRequest_try_fields.
Qed.

(** The accessors: the state is that of the underlying [makeRequest]. *)
Lemma try_catch_empty_array_snd (c : Completion JSON * State) :
  snd (try_catch c empty_array) = snd c.
Proof. destruct c as [[d|e|] s]; reflexivity. Qed.

Lemma try_catch_empty_array_fst (c : Completion JSON * State) :
  fst (try_catch c empty_array)
  = match fst c with
    | Return d => Return d
    | Throw _ => Return (JArray [])
    | Pending => Pending
    end.
Proof. destruct c as [[d|e|] s]; reflexivity. Qed.

(** The kind of a failure, by what the network does: the kinds are those of
    the specification. *)
Lemma failure_kind_by_exchange url options env st :
  cached (cacheKey url options) (now_read env) (cache (this st)) = None ->
  failure_kind url options env st
  = match latency (exchange env) with
    | None => Some Timeout
    | Some t =>
        if t <? requestTimeout (this st) then
          match settlement (exchange env) with
          | Fails _ => Some Network
          | Responds r =>
              if ok r then
                match body r with
                | Parses _ | NeverSettles => None
                | NotJson _ => Some Malformed
                | StreamFails _ => Some Network
                end
              else Some HttpStatus
          end
        else Some Timeout
    end.
Proof.
  intros Hc. unfold failure_kind. rewrite Hc, makeRequest_try_result.
  unfold fetch. destruct (latency (exchange env)) as [t|]; [|reflexivity].
  destruct (t <? requestTimeout (this st)); [|reflexivity].
  destruct (settlement (exchange env)) as [r|msg]; [|reflexivity].
  destruct (ok r); [|reflexivity].
  unfold json. destruct (body r); reflexivity.
Qed.

(** ** The invariant of the cache *)

Lemma unique_keys_nil : unique_keys [].
Proof. intros key. simpl. lia. Qed.

Lemma unique_keys_set key e c :
  unique_keys c -> unique_keys (map_set key e c).
Proof. intros H k. apply entries_of_set_length, H. Qed.

Lemma makeRequest_unique_keys url options env st :
  unique_keys (cache (this st)) ->
  unique_keys (cache (this (snd (makeRequest url options env st)))).
Proof.
  intros H.
  destruct (cached (cacheKey url options) (now_read env) (cache (this st))) as [d|] eqn:Hc.
  - now rewrite (makeRequest_hit _ _ _ _ _ Hc).
  - destruct (makeRequest_miss _ _ _ _ Hc) as [-> _].
    rewrite makeRequest_try_cache.
    destruct (fst (makeRequest_try url options env st));
      [now apply unique_keys_set | exact H | exact H].
Qed.

Lemma clearCache_unique_keys st :
  unique_keys (cache (this (DataLoader.clearCache st))).
Proof. exact unique_keys_nil. Qed.

Lemma run_op_unique_keys st op :
  unique_keys (cache (this st)) -> unique_keys (cache (this (run_op st op))).
Proof.
  intros H. destruct op; simpl;
    unfold fetchProducts, fetchAllProducts, fetchProductsByCategory, fetchCategories;
    rewrite ?try_catch_empty_array_snd;
    try (now apply makeRequest_unique_keys).
  exact unique_keys_nil.
Qed.

Lemma run_unique_keys ops st :
  unique_keys (cache (this st)) -> unique_keys (cache (this (run ops st))).
Proof.
  unfold run. revert st.
  induction ops as [|op ops IH]; intros st H; simpl; [exact H|].
  apply IH, run_op_unique_keys, H.
Qed.

Lemma run_op_requestTimeout st op :
  requestTimeout (this (run_op st op)) = requestTimeout (this st).
Proof.
  destruct op; simpl;
    unfold fetchProducts, fetchAllProducts, fetchProductsByCategory, fetchCategories;
    rewrite ?try_catch_empty_array_snd;
    try apply makeRequest_fields; reflexivity.
Qed.

Lemma run_requestTimeout ops st :
  requestTimeout (this (run ops st)) = requestTimeout (this st).
Proof.
  unfold run. revert st.
  induction ops as [|op ops IH]; intros st; simpl; [reflexivity|].
  now rewrite IH, run_op_requestTimeout.
Qed.

(** ** Lemmas on [createRatingStars] *)

Lemma concat_repeat_singleton {A : Type} (x : A) (n : nat) :
  List.concat (List.repeat [x] n) = List.repeat x n.
Proof. induction n as [|n IH]; simpl; [reflexivity | now rewrite IH]. Qed.

Lemma repeat_string_singleton c count :
  0 <= count ->
  ProductRenderer.repeat_string [c] count = Some (List.repeat c (Z.to_nat count)).
Proof.
  intros H. unfold ProductRenderer.repeat_string.
  destruct (Z.ltb_spec count 0); [lia|].
  f_equal. apply (concat_repeat_singleton c).
Qed.

(** On a rating that is not negative, [% 1] is the fractional part. *)
Lemma rem1_nonneg (q : Q) :
  (0 <= q)%Q -> ProductRenderer.rem1 q = (q - inject_Z (Qfloor q))%Q.
Proof.
  intros H. unfold ProductRenderer.rem1, ProductRenderer.truncate.
  apply Qle_bool_iff in H. now rewrite H.
Qed.

Lemma Qfloor_rating_bounds (q : Q) :
  (0 <= q)%Q -> (q <= 5)%Q -> 0 <= Qfloor q <= 5.
Proof.
  intros H0 H5. split.
  - change 0 with (Qfloor 0). now apply Qfloor_resp_le.
  - change 5 with (Qfloor 5). now apply Qfloor_resp_le.
Qed.

(** A half star leaves room for it: the floor is then at most 4. *)
Lemma half_star_room (q : Q) :
  (q <= 5)%Q ->
  Qle_bool (1 # 2) (q - inject_Z (Qfloor q)) = true ->
  Qfloor q <= 4.
Proof.
  intros H5 Hhalf. apply Qle_bool_iff in Hhalf.
  assert (Hlt : (inject_Z (Qfloor q) < inject_Z 5)%Q).
  { change (inject_Z 5) with 5%Q. lra. }
  rewrite <- Zlt_Qlt in Hlt. lia.
Qed.

(** ** The properties of the specification *)

Ltac break_hyps :=
  repeat match goal with
         | H : _ /\ _ |- _ => destruct H
         | H : exists _, _ |- _ => destruct H
         | H : _ \/ _ |- _ => destruct H
         | H : mkExchange _ _ = mkExchange _ _ |- _ => injection H as; subst
         | H : Responds _ = Responds _ |- _ => injection H as; subst
         | H : mkResponse _ _ = mkResponse _ _ |- _ => injection H as; subst
         end.

(** The outcome of a call that misses the cache, by what the network
    does. *)
Lemma makeRequest_miss_table url options env st :
  cached (cacheKey url options) (now_read env) (cache (this st)) = None ->
  fst (makeRequest url options env st)
  = match latency (exchange env) with
    | None => Throw (mkError Error ("Falha ao carregar dados: " +:+ abort_message env))
    | Some t =>
        if t <? requestTimeout (this st) then
          match settlement (exchange env) with
          | Fails msg => Throw (mkError Error ("Falha ao carregar dados: " +:+ msg))
          | Responds r =>
              if ok r then
                match body r with
                | Parses d => Return d
                | NotJson msg | StreamFails msg =>
                    Throw (mkError Error ("Falha ao carregar dados: " +:+ msg))
                | NeverSettles => Pending
                end
              else
                Throw (mkError Error
                         ("Falha ao carregar dados: HTTP error! status: "
                          +:+ number_to_string (status r)))
          end
        else Throw (mkError Error ("Falha ao carregar dados: " +:+ abort_message env))
    end.
Proof.
  intros Hc. destruct (makeRequest_miss _ _ _ _ Hc) as [_ ->].
  rewrite makeRequest_try_result. unfold fetch.
  destruct (latency (exchange env)) as [t|]; [|reflexivity].
  destruct (t <? requestTimeout (this st)); [|reflexivity].
  destruct (settlement (exchange env)) as [r|msg]; [|reflexivity].
  destruct (ok r); [|reflexivity].
  unfold json. destruct (body r); reflexivity.
Qed.

Lemma ok_spec r : ok r = true <-> 200 <= status r <= 299.
Proof.
  unfold ok. rewrite andb_true_iff, !Z.leb_le. tauto.
Qed.

(** C1, as amended.  Every call of [makeRequest] with options that
    [JSON.stringify] serializes returns data, or throws an [Error] whose
    message is "Falha ao carregar dados: " followed by the message of the
    error caught, or never settles; it never settles exactly when the body
    of a successful response never arrives.  A failure is a [Timeout]
    exactly when [fetch] had not settled when the timer fired, an
    [HttpStatus] exactly when the response came in time with a status
    outside 200-299, a [Malformed] exactly when the body of a successful
    response was not JSON, and a [Network] exactly when [fetch] was
    rejected or the body stream of a successful response failed.  On
    options that [JSON.stringify] refuses, the call throws the [TypeError]
    of [JSON.stringify] as it is, without a request and without a change of
    state. *)
Theorem makeRequest_returns_or_fails_classified url options env st :
  let call := makeRequest_any url (Serializable options) env st in
  let miss := cached (cacheKey url options) (now_read env) (cache (this st)) = None in
  let in_time t := t < requestTimeout (this st) in
  (forall message,
      makeRequest_any url (NotSerializable message) env st
      = (Throw (mkError TypeError message), st))
  /\ ((exists d, fst call = Return d /\ failure_kind url options env st = None)
   \/ (exists cause,
         fst (makeRequest_try url options env st) = Throw cause
         /\ fst call
            = Throw (mkError Error ("Falha ao carregar dados: " +:+ message cause))
         /\ failure_kind url options env st = Some (kind_of cause))
   \/ (fst call = Pending /\ failure_kind url options env st = None))
  /\ (fst call = Pending
      <-> miss /\ exists t s,
            exchange env = mkExchange (Some t) (Responds (mkResponse s NeverSettles))
            /\ in_time t /\ 200 <= s <= 299)
  /\ (failure_kind url options env st = Some Timeout
      <-> miss /\ match latency (exchange env) with
                  | Some t => requestTimeout (this st) <= t
                  | None => True
                  end)
  /\ (failure_kind url options env st = Some HttpStatus
      <-> miss /\ exists t r,
            exchange env = mkExchange (Some t) (Responds r)
            /\ in_time t /\ ~ (200 <= status r <= 299))
  /\ (failure_kind url options env st = Some Malformed
      <-> miss /\ exists t s msg,
            exchange env = mkExchange (Some t) (Responds (mkResponse s (NotJson msg)))
            /\ in_time t /\ 200 <= s <= 299)
  /\ (failure_kind url options env st = Some Network
      <-> miss /\ exists t,
            in_time t
            /\ ((exists msg, exchange env = mkExchange (Some t) (Fails msg))
                \/ (exists s msg,
                      exchange env
                      = mkExchange (Some t) (Responds (mkResponse s (StreamFails msg)))
                      /\ 200 <= s <= 299))).
Proof.
  intros call miss in_time. unfold call, miss, in_time.
  split; [reflexivity|]. simpl makeRequest_any.
  split.
  { unfold failure_kind.
    destruct (cached (cacheKey url options) (now_read env) (cache (this st)))
      as [d|] eqn:Hc.
    - left. exists d. now rewrite (makeRequest_hit _ _ _ _ _ Hc).
    - destruct (makeRequest_miss _ _ _ _ Hc) as [_ ->].
      destruct (fst (makeRequest_try url options env st)) as [d|cause|].
      + left. eauto.
      + right. left. exists cause. repeat split.
      + right. right. now split. }
  destruct (cached (cacheKey url options) (now_read env) (cache (this st)))
    as [d|] eqn:Hc.
  { assert (Hk : failure_kind url options env st = None)
      by (unfold failure_kind; now rewrite Hc).
    rewrite Hk, (makeRequest_hit _ _ _ _ _ Hc). simpl.
    repeat split; intros; break_hyps; discriminate. }
  rewrite (failure_kind_by_exchange _ _ _ _ Hc), (makeRequest_miss_table _ _ _ _ Hc).
  destruct (exchange env) as [[t|] sett]; simpl.
  - destruct (Z.ltb_spec t (requestTimeout (this st))) as [Ht|Ht].
    + destruct sett as [[s b]|msg].
      * destruct (ok (mkResponse s b)) eqn:Hok.
        -- apply ok_spec in Hok. simpl in Hok.
           destruct b as [d|msg|msg|]; simpl;
             repeat split; intros; break_hyps;
               try discriminate; try lia; try reflexivity;
               try (simpl in *; exfalso; lia);
               eauto 10.
        -- assert (Hs : ~ (200 <= s <= 299)).
           { intros Hs. change s with (status (mkResponse s b)) in Hs.
             apply ok_spec in Hs. congruence. }
           repeat split; intros; break_hyps;
             try discriminate; try lia; try reflexivity.
           exists t, (mkResponse s b). auto.
      * repeat split; intros; break_hyps;
          try discriminate; try lia; try reflexivity.
        exists t. split; [exact Ht | left; eauto].
    + repeat split; intros; break_hyps;
        try discriminate; try lia; try reflexivity.
  - repeat split; intros; break_hyps;
      try discriminate; try lia; try reflexivity.
Qed.

(** C1, as stated, fails: when the transport fails, the call neither returns
    data nor fails as a [Timeout], an [HttpStatus] or a [Malformed] error. *)
Lemma makeRequest_offline_not_in_three_kinds :
  ~ ((exists d, fst (makeRequest products_url [] env_offline constructed) = Return d)
     \/ failure_kind products_url [] env_offline constructed = Some Timeout
     \/ failure_kind products_url [] env_offline constructed = Some HttpStatus
     \/ failure_kind products_url [] env_offline constructed = Some Malformed).
Proof.
  assert (Hk : failure_kind products_url [] env_offline constructed = Some Network)
    by reflexivity.
  assert (Hr : fst (makeRequest products_url [] env_offline constructed)
               = Throw (mkError Error "Falha ao carregar dados: Failed to fetch"))
    by reflexivity.
  rewrite Hk, Hr.
  intros [[d H] | [H | [H | H]]]; discriminate H.
Qed.

(** C2.  A call that finds an entry younger than 300000 ms under its
    fingerprint returns the data of that entry and hands nothing to [fetch];
    so a call followed by a second one inside the freshness window of the
    entry hands at most one request to [fetch] in total. *)
Theorem makeRequest_fresh_entry_served url options :
  (forall env st e,
      map_get (cacheKey url options) (cache (this st)) = Some e ->
      now_read env - timestamp e < 300000 ->
      makeRequest url options env st = (Return (data e), st)
      /\ requests_issued st (snd (makeRequest url options env st)) = 0)
  /\
  (forall env1 env2 st e,
      let st1 := snd (makeRequest url options env1 st) in
      let st2 := snd (makeRequest url options env2 st1) in
      map_get (cacheKey url options) (cache (this st1)) = Some e ->
      now_read env2 - timestamp e < 300000 ->
      fst (makeRequest url options env2 st1) = Return (data e)
      /\ requests_issued st1 st2 = 0
      /\ requests_issued st st2 <= 1).
Proof.
  assert (Hhit : forall env st e,
      map_get (cacheKey url options) (cache (this st)) = Some e ->
      now_read env - timestamp e < 300000 ->
      makeRequest url options env st = (Return (data e), st)
      /\ requests_issued st (snd (makeRequest url options env st)) = 0).
  { intros env st e Hget Hage.
    assert (Hc : cached (cacheKey url options) (now_read env) (cache (this st))
                 = Some (data e)) by (apply cached_Some; eauto).
    split; [now apply makeRequest_hit|].
    rewrite makeRequest_requests. now rewrite Hc. }
  split; [exact Hhit|].
  intros env1 env2 st e st1 st2 Hget Hage.
  destruct (Hhit env2 st1 e Hget Hage) as [Hcall H0].
  fold st2 in H0. split; [now rewrite Hcall | split; [exact H0|]].
  pose proof (makeRequest_requests url options env1 st) as H1. fold st1 in H1.
  unfold requests_issued in *.
  destruct (cached _ _ _); lia.
Qed.

(** C2 at a concrete pair of calls: the catalog is fetched, then asked for
    again one second later. *)
Lemma makeRequest_fresh_entry_served_witness :
  let st1 := snd (makeRequest products_url [] env_ok constructed) in
  makeRequest products_url [] env_404 st1 = (Return (JArray catalog), st1)
  /\ requests_issued constructed (snd (makeRequest products_url [] env_404 st1)) <= 1.
Proof.
  intros st1.
  pose proof (makeRequest_fresh_entry_served products_url []) as [Hone Htwo].
  split.
  - apply (Hone env_404 st1 (mkEntry (JArray catalog) 1120)); [reflexivity | simpl; lia].
  - apply (Htwo env_ok env_404 constructed (mkEntry (JArray catalog) 1120));
      [reflexivity | simpl; lia].
Defined.

(** C3.  A call that finds under its fingerprint an entry of 300000 ms or
    more hands exactly one request to [fetch].  When it succeeds, as it does
    when the response is a success with a JSON body, the fingerprint holds
    one entry afterwards: the new data with the current time.  The old entry
    is gone and the other fingerprints are untouched. *)
Theorem makeRequest_stale_entry_refetched url options env st old :
  let key := cacheKey url options in
  let st' := snd (makeRequest url options env st) in
  unique_keys (cache (this st)) ->
  map_get key (cache (this st)) = Some old ->
  300000 <= now_read env - timestamp old ->
  requests_issued st st' = 1
  /\ network_log st' = mkRequest url options :: network_log st
  /\ (forall d,
        fst (makeRequest url options env st) = Return d ->
        entries_of key (cache (this st')) = [mkEntry d (now_write env)]
        /\ map_get key (cache (this st')) = Some (mkEntry d (now_write env))
        /\ (forall k, k <> key ->
              entries_of k (cache (this st')) = entries_of k (cache (this st))))
  /\ (forall t s d,
        exchange env = mkExchange (Some t) (Responds (mkResponse s (Parses d))) ->
        t < requestTimeout (this st) ->
        200 <= s <= 299 ->
        fst (makeRequest url options env st) = Return d).
Proof.
  intros key st' Huniq Hget Hage.
  assert (Hc : cached key (now_read env) (cache (this st)) = None)
    by (apply cached_None; right; eauto).
  destruct (makeRequest_miss _ _ _ _ Hc) as [Hst Hres].
  split; [|split; [|split]].
  - unfold st'. rewrite makeRequest_requests. fold key. now rewrite Hc.
  - unfold st'. rewrite Hst. apply makeRequest_try_log.
  - intros d Hd.
    assert (Htry : fst (makeRequest_try url options env st) = Return d).
    { rewrite Hres in Hd.
      destruct (fst (makeRequest_try url options env st));
        [exact Hd | discriminate | discriminate]. }
    assert (Hcache : cache (this st')
                     = map_set key (mkEntry d (now_write env)) (cache (this st))).
    { unfold st'. rewrite Hst, makeRequest_try_cache, Htry. reflexivity. }
    rewrite Hcache. split; [|split].
    + apply entries_of_set_unique, Huniq.
    + apply map_get_set_eq.
    + intros k Hk. now apply entries_of_set_ne.
  - intros t s d Hx Ht Hs.
    rewrite Hres, makeRequest_try_result, Hx. unfold fetch. simpl.
    destruct (Z.ltb_spec t (requestTimeout (this st))); [|lia].
    unfold ok, json. simpl.
    destruct (Z.leb_spec 200 s); [|lia].
    destruct (Z.leb_spec s 299); [|lia]. reflexivity.
Qed.

(** C3 at a concrete call: the catalog cached at 1120 is asked for again six
    minutes later, and an empty catalog arrives. *)
Lemma makeRequest_stale_entry_refetched_witness :
  let st1 := snd (makeRequest products_url [] env_ok constructed) in
  let st2 := snd (makeRequest products_url [] env_later st1) in
  requests_issued st1 st2 = 1
  /\ fst (makeRequest products_url [] env_later st1) = Return (JArray [])
  /\ entries_of (cacheKey products_url []) (cache (this st2))
     = [mkEntry (JArray []) 361210].
Proof.
  intros st1 st2.
  destruct (makeRequest_stale_entry_refetched products_url [] env_later st1
              (mkEntry (JArray catalog) 1120))
    as (H1 & _ & H3 & H4).
  - apply (run_unique_keys [OpMakeRequest products_url [] env_ok] constructed),
      unique_keys_nil.
  - reflexivity.
  - simpl. lia.
  - assert (Hret : fst (makeRequest products_url [] env_later st1) = Return (JArray []))
      by (apply (H4 90 200); [reflexivity | simpl; lia | lia]).
    split; [exact H1 | split; [exact Hret | apply (H3 _ Hret)]].
Defined.

(** C4, as amended.  The timeout is 10000 ms from construction on, whatever
    is done with the cache, and it bounds the wait for the promise of
    [fetch].  A call that goes to the network and whose [fetch] has not
    settled when the timer fires is aborted: it settles at the timeout and
    throws, with the message of the [AbortError], as a [Timeout] failure; it
    returns no data, not even those of a stale entry, and leaves the cache as
    it was. *)
Theorem makeRequest_timeout_aborts url options env st :
  cached (cacheKey url options) (now_read env) (cache (this st)) = None ->
  match latency (exchange env) with
  | Some t => requestTimeout (this st) <= t
  | None => True
  end ->
  (forall ops, requestTimeout (this (run ops constructed)) = 10000)
  /\ fst (makeRequest url options env st)
     = Throw (mkError Error ("Falha ao carregar dados: " +:+ abort_message env))
  /\ failure_kind url options env st = Some Timeout
  /\ requests_issued st (snd (makeRequest url options env st)) = 1
  /\ cache (this (snd (makeRequest url options env st))) = cache (this st)
  /\ settles_after url options env st = Some (requestTimeout (this st)).
Proof.
  intros Hc Hlate.
  assert (Hfetch : fetch (requestTimeout (this st)) (abort_message env) (exchange env)
                   = Throw (mkError AbortError (abort_message env))).
  { unfold fetch. destruct (latency (exchange env)) as [t|]; [|reflexivity].
    destruct (Z.ltb_spec t (requestTimeout (this st))); [lia | reflexivity]. }
  assert (Htry : fst (makeRequest_try url options env st)
                 = Throw (mkError AbortError (abort_message env)))
    by (now rewrite makeRequest_try_result, Hfetch).
  destruct (makeRequest_miss _ _ _ _ Hc) as [Hst Hres].
  split; [|split; [|split; [|split; [|split]]]].
  - intros ops. now rewrite run_requestTimeout.
  - now rewrite Hres, Htry.
  - unfold failure_kind. now rewrite Hc, Htry.
  - rewrite makeRequest_requests. now rewrite Hc.
  - rewrite Hst, makeRequest_try_cache, Htry. reflexivity.
  - unfold settles_after. rewrite Hc.
    destruct (latency (exchange env)) as [t|]; [|reflexivity].
    destruct (Z.ltb_spec t (requestTimeout (this st))); [lia | reflexivity].
Qed.

(** C4 at a concrete call: the server takes 12 s to answer while a stale
    copy of the catalog is in the cache. *)
Lemma makeRequest_timeout_aborts_witness :
  let st1 := snd (makeRequest products_url [] env_ok constructed) in
  let env := mkEnv 400000 (exchange env_slow) (abort_message env_slow) 412000 30 in
  fst (makeRequest products_url [] env st1)
  = Throw (mkError Error "Falha ao carregar dados: signal is aborted without reason")
  /\ cache (this (snd (makeRequest products_url [] env st1))) = cache (this st1)
  /\ settles_after products_url [] env st1 = Some 10000.
Proof.
  intros st1 env.
  destruct (makeRequest_timeout_aborts products_url [] env st1)
    as (_ & H2 & _ & _ & H5 & H6).
  - reflexivity.
  - simpl. lia.
  - split; [exact H2 | split; [exact H5 | exact H6]].
Defined.

(** C4, as stated, fails: the timer is cleared when [fetch] is fulfilled,
    so a response whose status arrives after 4 ms and whose body takes a
    minute completes long after the timeout, and the call is not aborted:
    it returns the data, 60004 ms after it was made. *)
Lemma makeRequest_slow_body_not_aborted :
  ~ (match latency (exchange env_slow_body) with
     | Some t => requestTimeout (this constructed) < t + body_latency env_slow_body
     | None => True
     end ->
     failure_kind products_url [] env_slow_body constructed = Some Timeout
     /\ exists within,
         settles_after products_url [] env_slow_body constructed = Some within
         /\ within <= requestTimeout (this constructed)).
Proof.
  intros H.
  assert (Hret : fst (makeRequest products_url [] env_slow_body constructed)
                 = Return (JArray catalog)) by reflexivity.
  assert (Hat : settles_after products_url [] env_slow_body constructed = Some 60004)
    by reflexivity.
  destruct H as [Hkind _]; [simpl; lia|].
  discriminate Hkind.
Qed.

(** C5.  When a call goes to the network and the response arrives with a
    status outside 200-299, the call throws an error whose message carries
    that status, an [HttpStatus] failure; and no call that fails, for
    whatever reason, changes the cache. *)
Theorem makeRequest_http_status_error url options env st t r :
  cached (cacheKey url options) (now_read env) (cache (this st)) = None ->
  exchange env = mkExchange (Some t) (Responds r) ->
  t < requestTimeout (this st) ->
  ~ (200 <= status r <= 299) ->
  fst (makeRequest url options env st)
  = Throw (mkError Error
             ("Falha ao carregar dados: HTTP error! status: "
              +:+ number_to_string (status r)))
  /\ failure_kind url options env st = Some HttpStatus
  /\ cache (this (snd (makeRequest url options env st))) = cache (this st)
  /\ (forall url' options' env' st' e,
        fst (makeRequest url' options' env' st') = Throw e ->
        cache (this (snd (makeRequest url' options' env' st'))) = cache (this st')).
Proof.
  intros Hc Hx Ht Hs.
  assert (Hok : ok r = false).
  { unfold ok. destruct (Z.leb_spec 200 (status r)); [|reflexivity].
    destruct (Z.leb_spec (status r) 299); [lia | reflexivity]. }
  assert (Htry : fst (makeRequest_try url options env st)
                 = Throw (mkError Error
                            ("HTTP error! status: " +:+ number_to_string (status r)))).
  { rewrite makeRequest_try_result, Hx. unfold fetch. simpl.
    destruct (Z.ltb_spec t (requestTimeout (this st))); [|lia].
    now rewrite Hok. }
  destruct (makeRequest_miss _ _ _ _ Hc) as [Hst Hres].
  assert (Hthrow : fst (makeRequest url options env st)
                   = Throw (mkError Error
                              ("Falha ao carregar dados: HTTP error! status: "
                               +:+ number_to_string (status r))))
    by (now rewrite Hres, Htry).
  split; [exact Hthrow | split; [|split]].
  - unfold failure_kind. now rewrite Hc, Htry.
  - exact (makeRequest_throw_cache _ _ _ _ _ Hthrow).
  - intros url' options' env' st' e. apply makeRequest_throw_cache.
Qed.

(** C5 at a concrete call: a 404 while the cache holds another entry. *)
Lemma makeRequest_http_status_error_witness :
  let st1 := snd (makeRequest products_url [] env_ok constructed) in
  let url := "https://fakestoreapi.com/products/category/none" in
  fst (makeRequest url [] env_404 st1)
  = Throw (mkError Error "Falha ao carregar dados: HTTP error! status: 404")
  /\ cache (this (snd (makeRequest url [] env_404 st1))) = cache (this st1).
Proof.
  intros st1 url.
  destruct (makeRequest_http_status_error url [] env_404 st1 80
              (mkResponse 404 (Parses (JObject []))))
    as (H1 & _ & H3 & _).
  - reflexivity.
  - reflexivity.
  - simpl. lia.
  - simpl. lia.
  - split; assumption.
Defined.

(** C6.  [fetchProducts] returns what the underlying [makeRequest] returns,
    unchanged; so when the request goes to the network and the catalog of N
    products arrives, it returns those N items as they are.  When the
    underlying [makeRequest] throws, whatever the error, it returns the
    empty array and throws nothing. *)
Theorem fetchProducts_items_or_empty limit env st :
  let url := products (baseUrls (this st)) +:+ "?limit=" +:+ number_to_string limit in
  (forall d, fst (makeRequest url [] env st) = Return d ->
             fetchProducts limit env st = (Return d, snd (makeRequest url [] env st)))
  /\ (forall e, fst (makeRequest url [] env st) = Throw e ->
                fetchProducts limit env st
                = (Return (JArray []), snd (makeRequest url [] env st)))
  /\ (forall N items t s,
        length items = N ->
        cached (cacheKey url []) (now_read env) (cache (this st)) = None ->
        exchange env = mkExchange (Some t) (Responds (mkResponse s (Parses (JArray items)))) ->
        t < requestTimeout (this st) ->
        200 <= s <= 299 ->
        exists items',
          fst (fetchProducts limit env st) = Return (JArray items')
          /\ items' = items /\ length items' = N).
Proof.
  intros url.
  assert (Hunfold : fetchProducts limit env st
                    = try_catch (makeRequest url [] env st) empty_array)
    by reflexivity.
  split; [|split].
  - intros d H. rewrite Hunfold.
    destruct (makeRequest url [] env st) as [[d'|e'|] st']; simpl in *;
      [congruence | discriminate | discriminate].
  - intros e H. rewrite Hunfold.
    destruct (makeRequest url [] env st) as [[d'|e'|] st']; simpl in *;
      [discriminate | reflexivity | discriminate].
  - intros N items t s Hlen Hc Hx Ht Hs.
    exists items. split; [|split; [reflexivity | exact Hlen]].
    rewrite Hunfold, try_catch_empty_array_fst.
    destruct (makeRequest_miss _ _ _ _ Hc) as [_ ->].
    rewrite makeRequest_try_result, Hx. unfold fetch. simpl.
    destruct (Z.ltb_spec t (requestTimeout (this st))); [|lia].
    unfold ok, json. simpl.
    destruct (Z.leb_spec 200 s); [|lia].
    destruct (Z.leb_spec s 299); [|lia]. reflexivity.
Qed.

(** C6 at concrete calls: a catalog of two products, and a failed
    transport. *)
Lemma fetchProducts_items_or_empty_witness :
  fst (fetchProducts 6 env_ok constructed) = Return (JArray catalog)
  /\ fst (fetchProducts 6 env_offline constructed) = Return (JArray []).
Proof.
  split.
  - destruct (fetchProducts_items_or_empty 6 env_ok constructed) as (_ & _ & H).
    destruct (H 2%nat catalog 120 200) as (items' & Hr & -> & _);
      [reflexivity | reflexivity | reflexivity | simpl; lia | lia | exact Hr].
  - destruct (fetchProducts_items_or_empty 6 env_offline constructed) as (_ & H & _).
    rewrite (H (mkError Error "Falha ao carregar dados: Failed to fetch"));
      reflexivity.
Defined.

(** C7.  [clearCache] leaves the cache without any entry, and the next
    [makeRequest], for any fingerprint, hands its request to [fetch]. *)
Theorem clearCache_forces_refetch st :
  cache (this (DataLoader.clearCache st)) = []
  /\ (forall key, entries_of key (cache (this (DataLoader.clearCache st))) = [])
  /\ (forall url options env,
        let st' := snd (makeRequest url options env (DataLoader.clearCache st)) in
        requests_issued (DataLoader.clearCache st) st' = 1
        /\ network_log st' = mkRequest url options :: network_log st).
Proof.
  split; [reflexivity | split; [reflexivity|]].
  intros url options env st'.
  assert (Hc : cached (cacheKey url options) (now_read env)
                 (cache (this (DataLoader.clearCache st))) = None) by reflexivity.
  split.
  - unfold st'. rewrite makeRequest_requests. now rewrite Hc.
  - unfold st'. destruct (makeRequest_miss _ _ _ _ Hc) as [-> _].
    now rewrite makeRequest_try_log.
Qed.

(** C8.  The fingerprint of a request is its URL followed by "_" and the
    [JSON.stringify] of the options, a string that is a function of the
    options alone and from which they can be read back: two option objects
    get one fingerprint exactly when they have the same properties once the
    array-index names are put first in ascending order, at every depth; so
    options without such names get one fingerprint only when they are equal,
    and one option object under two URLs gets two fingerprints.  The cache
    of a new instance holds at most one entry per fingerprint, [makeRequest]
    (on options that serialize or not), the accessors and [clearCache] keep
    it so, and hence so does every cache that is reached. *)
Theorem cache_one_entry_per_fingerprint st :
  unique_keys (cache (this st)) ->
  (forall url options,
      cacheKey url options = url +:+ ("_" +:+ JSON_stringify (OObject options)))
  /\ (forall url o1 o2,
        cacheKey url o1 = cacheKey url o2
        <-> enumerate (OObject o1) = enumerate (OObject o2))
  /\ (forall url o1 o2,
        index_free (OObject o1) = true -> index_free (OObject o2) = true ->
        cacheKey url o1 = cacheKey url o2 -> o1 = o2)
  /\ (forall url1 url2 options,
        cacheKey url1 options = cacheKey url2 options -> url1 = url2)
  /\ unique_keys (cache (this constructed))
  /\ (forall url options env,
        unique_keys (cache (this (snd (makeRequest url options env st)))))
  /\ (forall url options env,
        unique_keys (cache (this (snd (makeRequest_any url options env st)))))
  /\ unique_keys (cache (this (DataLoader.clearCache st)))
  /\ (forall ops, unique_keys (cache (this (run ops st))))
  /\ (forall ops, unique_keys (cache (this (run ops constructed)))).
Proof.
  intros H.
  assert (Hkey : forall url o1 o2,
             cacheKey url o1 = cacheKey url o2
             <-> enumerate (OObject o1) = enumerate (OObject o2)).
  { intros url o1 o2. rewrite <- JSON_stringify_inj. unfold cacheKey. split.
    - intros E. apply string_append_inv_head in E.
      now apply (string_append_inv_head "_") in E.
    - now intros ->. }
  split; [reflexivity|].
  split; [exact Hkey|].
  split.
  { intros url o1 o2 H1 H2 E. apply Hkey in E.
    rewrite (enumerate_index_free _ H1), (enumerate_index_free _ H2) in E.
    now injection E. }
  split.
  { intros url1 url2 options E. unfold cacheKey in E.
    now apply string_append_inv_tail in E. }
  split; [exact unique_keys_nil|].
  split; [intros; now apply makeRequest_unique_keys|].
  split.
  { intros url [options|message] env; simpl;
      [now apply makeRequest_unique_keys | exact H]. }
  split; [apply clearCache_unique_keys|].
  split; intros ops; apply run_unique_keys; [exact H | exact unique_keys_nil].
Qed.

(** C8 at a concrete run: fetch, fail, refetch after expiry, clear, fetch;
    and at options with the names 1, 0 and [method], whose fingerprint
    forgets the order of 1 and 0 and nothing else. *)
Lemma cache_one_entry_per_fingerprint_witness :
  let ops := [OpFetchProducts 6 env_ok; OpMakeRequest products_url [] env_404;
              OpFetchProducts 6 env_later; OpClearCache; OpFetchAllProducts env_ok] in
  let get := [("method", OString "GET")] in
  let post := [("method", OString "POST")] in
  cacheKey products_url [] = "https://fakestoreapi.com/products?limit=6_{}"
  /\ cacheKey products_url [("1", ONull); ("method", OString "GET"); ("0", OBool true)]
     = cacheKey products_url [("0", OBool true); ("1", ONull); ("method", OString "GET")]
  /\ cacheKey products_url get <> cacheKey products_url post
  /\ cacheKey products_url get <> cacheKey "https://fakestoreapi.com/products" get
  /\ unique_keys (cache (this (run ops (snd (fetchProducts 6 env_ok constructed))))).
Proof.
  intros ops get post.
  destruct (cache_one_entry_per_fingerprint (snd (fetchProducts 6 env_ok constructed)))
    as (Hkey & Hsame & Hfree & Hurl & _ & _ & _ & _ & Hrun & _).
  - apply (run_unique_keys [OpFetchProducts 6 env_ok] constructed), unique_keys_nil.
  - split; [rewrite Hkey; reflexivity|].
    split; [apply Hsame; reflexivity|].
    split; [intros E; apply Hfree in E; [discriminate E | reflexivity ..]|].
    split; [intros E; apply Hurl in E; discriminate E | apply Hrun].
Defined.

(** C9.  A construction on a realm where [ApiManager.instance] is set
    returns that instance and changes nothing, whatever has been done to the
    instance since it was made; the first construction allocates a fresh
    object with the initial fields, leaves the other objects alone and sets
    [ApiManager.instance].  So two constructions give two references to one
    object: one cache, one timeout, and a write through either reference is
    read through the other, and kept by later constructions.  Two
    [DataLoader]s therefore hold the same manager. *)
Theorem ApiManager_constructed_once r :
  let l1 := fst (Singleton.new_ApiManager r) in
  let r1 := snd (Singleton.new_ApiManager r) in
  let l2 := fst (Singleton.new_ApiManager r1) in
  let r2 := snd (Singleton.new_ApiManager r1) in
  Singleton.instance r1 = Some l1
  /\ l2 = l1 /\ r2 = r1
  /\ (forall n, Singleton.construct_many n r1 = (List.repeat l1 n, r1))
  /\ Singleton.read l2 r2 = Singleton.read l1 r1
  /\ (forall f, Singleton.read l2 (Singleton.write l1 f r2)
                = f <$> Singleton.read l1 r1)
  /\ Singleton.apiManager (fst (Singleton.new_DataLoader r1)) = l1
  /\ Singleton.apiManager
       (fst (Singleton.new_DataLoader (snd (Singleton.new_DataLoader r1)))) = l1
  /\ Singleton.read (fst (Singleton.new_ApiManager Singleton.empty))
       (snd (Singleton.new_ApiManager Singleton.empty))
     = Some ApiManager.initial
  /\ (forall l, Singleton.instance r = Some l -> Singleton.new_ApiManager r = (l, r))
  /\ (Singleton.instance r = None ->
      Singleton.read l1 r = None
      /\ Singleton.read l1 r1 = Some ApiManager.initial
      /\ forall l, l <> l1 -> Singleton.read l r1 = Singleton.read l r)
  /\ (forall f,
        Singleton.new_ApiManager (Singleton.write l1 f r1)
        = (l1, Singleton.write l1 f r1)).
Proof.
  intros l1 r1 l2 r2.
  assert (Hinst : Singleton.instance r1 = Some l1).
  { unfold r1, l1, Singleton.new_ApiManager.
    destruct (Singleton.instance r) eqn:E; [exact E | reflexivity]. }
  assert (Hnew : Singleton.new_ApiManager r1 = (l1, r1)).
  { unfold Singleton.new_ApiManager at 1. now rewrite Hinst. }
  assert (Hl : l2 = l1) by (unfold l2; now rewrite Hnew).
  assert (Hr : r2 = r1) by (unfold r2; now rewrite Hnew).
  split; [exact Hinst | split; [exact Hl | split; [exact Hr|]]].
  split.
  { induction n as [|n IH]; simpl; [reflexivity|]. now rewrite Hnew, IH. }
  split; [now rewrite Hl, Hr|].
  split.
  { intros f. rewrite Hl, Hr. unfold Singleton.read, Singleton.write. simpl.
    apply lookup_alter_eq. }
  split; [unfold Singleton.new_DataLoader; now rewrite Hnew|].
  split; [unfold Singleton.new_DataLoader; rewrite Hnew; simpl; now rewrite Hnew|].
  split; [unfold Singleton.read; simpl; apply lookup_insert_eq|].
  split.
  { intros l Hl0. unfold Singleton.new_ApiManager. now rewrite Hl0. }
  split.
  { intros Hnone. unfold l1, r1, Singleton.new_ApiManager, Singleton.read.
    rewrite Hnone. simpl.
    assert (Hfresh : Singleton.heap r !! fresh (dom (Singleton.heap r)) = None)
      by (apply not_elem_of_dom, is_fresh).
    split; [exact Hfresh | split; [apply lookup_insert_eq|]].
    intros l Hne. now apply lookup_insert_ne. }
  intros f. unfold Singleton.new_ApiManager at 1. simpl. now rewrite Hinst.
Qed.

(** C9 at a concrete realm: the cache of the instance is filled through the
    first reference, and a later construction returns the same object with
    the cache as it is. *)
Lemma ApiManager_constructed_once_witness :
  let l1 := fst (Singleton.new_ApiManager Singleton.empty) in
  let r1 := snd (Singleton.new_ApiManager Singleton.empty) in
  let filled := Singleton.write l1 (fun m => this (snd (fetchProducts 6 env_ok (mkState m []))))
                  r1 in
  Singleton.new_ApiManager filled = (l1, filled)
  /\ (cache <$> Singleton.read (fst (Singleton.new_ApiManager filled))
                  (snd (Singleton.new_ApiManager filled)))
     = Some [(cacheKey products_url [], mkEntry (JArray catalog) 1120)].
Proof.
  intros l1 r1 filled.
  destruct (ApiManager_constructed_once filled)
    as (_ & _ & _ & _ & _ & _ & _ & _ & _ & Hsame & _).
  assert (Hnew : Singleton.new_ApiManager filled = (l1, filled))
    by (apply Hsame; reflexivity).
  split; [exact Hnew|].
  rewrite Hnew. reflexivity.
Defined.

(** C10.  For a rating from 0 to 5, [createRatingStars] returns a string of
    five characters: floor(rating) black stars, then one white star as the
    half-star marker when the fractional part is at least 1/2, then white
    stars up to five. *)
Theorem createRatingStars_five_stars (rating : Q) :
  (0 <= rating)%Q -> (rating <= 5)%Q ->
  let full := Z.to_nat (Qfloor rating) in
  let half := Qle_bool (1 # 2) (rating - inject_Z (Qfloor rating)) in
  let marker := if half then [ProductRenderer.WHITE_STAR] else [] in
  exists (empty : nat) (s : ProductRenderer.ustring),
    ProductRenderer.createRatingStars rating = Some s
    /\ length s = 5%nat
    /\ (full + length marker + empty = 5)%nat
    /\ s = (List.repeat ProductRenderer.BLACK_STAR full ++ marker
            ++ List.repeat ProductRenderer.WHITE_STAR empty)%list.
Proof.
  intros H0 H5 full half marker.
  pose proof (Qfloor_rating_bounds rating H0 H5) as Hfloor.
  assert (Hroom : half = true -> Qfloor rating <= 4)
    by (apply half_star_room; exact H5).
  set (emptyStars := 5 - Qfloor rating - (if half then 1 else 0)).
  assert (Hempty : 0 <= emptyStars).
  { unfold emptyStars. destruct half; [specialize (Hroom eq_refl)|]; lia. }
  exists (Z.to_nat emptyStars).
  exists (List.repeat ProductRenderer.BLACK_STAR full ++ marker
          ++ List.repeat ProductRenderer.WHITE_STAR (Z.to_nat emptyStars))%list.
  assert (Hsum : (full + length marker + Z.to_nat emptyStars = 5)%nat).
  { unfold full, marker, emptyStars.
    destruct half; [specialize (Hroom eq_refl)|]; simpl length; lia. }
  split; [|split; [|split; [exact Hsum | reflexivity]]].
  - unfold ProductRenderer.createRatingStars.
    rewrite (rem1_nonneg rating H0). fold half. fold emptyStars.
    rewrite (repeat_string_singleton _ (Qfloor rating)) by lia.
    rewrite (repeat_string_singleton _ emptyStars) by exact Hempty.
    reflexivity.
  - rewrite !length_app, !repeat_length. lia.
Qed.

(** C10 at the rating 4.5. *)
Lemma createRatingStars_five_stars_witness :
  ProductRenderer.createRatingStars (9 # 2)
  = Some [9733; 9733; 9733; 9733; 9734]%N.
Proof.
  destruct (createRatingStars_five_stars (9 # 2)) as (empty & s & Hs & _).
  - unfold Qle. simpl. lia.
  - unfold Qle. simpl. lia.
  - rewrite Hs. vm_compute in Hs. injection Hs as <-. reflexivity.
Defined.

(** ** Further properties of the API layer *)

Lemma number_to_string_inj (n m : Z) :
  number_to_string n = number_to_string m -> n = m.
Proof.
  unfold number_to_string. intros H.
  assert (Hnil : forall z, Z.to_int z <> Decimal.Pos Decimal.Nil
                           /\ Z.to_int z <> Decimal.Neg Decimal.Nil).
  { intros [|p|p]; simpl; split; try discriminate;
      intros [= E]; now apply (DecimalPos.Unsigned.to_uint_nonnil p). }
  apply (f_equal NilZero.int_of_string) in H.
  rewrite !NilZero.isi in H by apply Hnil.
  injection H as H. now apply DecimalZ.to_int_inj.
Qed.

Lemma cacheKey_url_inj url1 url2 options :
  cacheKey url1 options = cacheKey url2 options -> url1 = url2.
Proof.
  unfold cacheKey. intros H.
  rewrite <- !string_append_assoc in H.
  apply string_append_inv_tail in H. now apply string_append_inv_tail in H.
Qed.

Lemma map_has_set (V : Type) k k0 (v : V) m :
  map_has k0 (map_set k v m) = map_has k0 m || String.eqb k0 k.
Proof.
  induction m as [|[k' v'] m IH]; simpl.
  - destruct (String.eqb k0 k); reflexivity.
  - destruct (String.eqb_spec k k') as [->|Hk]; simpl.
    + destruct (String.eqb k0 k'); simpl; now rewrite ?orb_false_r.
    + destruct (String.eqb k0 k'); [reflexivity | exact IH].
Qed.

Lemma map_set_length (V : Type) k (v : V) m :
  length (map_set k v m) = if map_has k m then length m else S (length m).
Proof.
  induction m as [|[k' v'] m IH]; simpl; [reflexivity|].
  destruct (String.eqb k k'); simpl; [reflexivity|].
  rewrite IH. now destruct (map_has k m).
Qed.

(** The state after any accessor built on [try_catch] and [empty_array]. *)
Lemma fetchRandomUsers_snd results env st :
  snd (fetchRandomUsers results env st)
  = snd (makeRequest (users (baseUrls (this st)) +:+ "?results=" +:+ number_to_string results)
           [] env st).
Proof.
  unfold fetchRandomUsers. rewrite try_catch_empty_array_snd.
  destruct (makeRequest _ [] env st) as [[response|e|] st']; simpl; try reflexivity.
  destruct (get_property "results" response); reflexivity.
Qed.

(** X1.  [fetchRandomUsers] never throws.  It leaves the state that the
    underlying [makeRequest] leaves, and returns the [results] property of
    the response when the response is an object whose [results] is truthy;
    for every other response ([null], which makes the property read throw,
    an array, a string, an object without [results] or with a falsy one) and
    for a failed request it returns the empty array.  It stays pending only
    when the request does. *)
Theorem fetchRandomUsers_results_or_empty results env st :
  let url := users (baseUrls (this st)) +:+ "?results=" +:+ number_to_string results in
  snd (fetchRandomUsers results env st) = snd (makeRequest url [] env st)
  /\ fst (fetchRandomUsers results env st)
     = match fst (makeRequest url [] env st) with
       | Return (JObject fields) =>
           Return (match assoc "results" fields with
                   | Some r => if truthy r then r else JArray []
                   | None => JArray []
                   end)
       | Return _ | Throw _ => Return (JArray [])
       | Pending => Pending
       end
  /\ (forall e, fst (fetchRandomUsers results env st) <> Throw e).
Proof.
  intros url.
  assert (Hfst : fst (fetchRandomUsers results env st)
     = match fst (makeRequest url [] env st) with
       | Return (JObject fields) =>
           Return (match assoc "results" fields with
                   | Some r => if truthy r then r else JArray []
                   | None => JArray []
                   end)
       | Return _ | Throw _ => Return (JArray [])
       | Pending => Pending
       end).
  { unfold fetchRandomUsers. fold url. rewrite try_catch_empty_array_fst.
    destruct (makeRequest url [] env st) as [[response|e|] st']; simpl; try reflexivity.
    destruct response; reflexivity. }
  split; [apply fetchRandomUsers_snd | split; [exact Hfst|]].
  intros e. rewrite Hfst.
  destruct (fst (makeRequest url [] env st)) as [response|e'|]; try discriminate.
  destruct response; discriminate.
Qed.

(** A request to one URL leaves the entries of every other URL alone. *)
Lemma other_url_entries_kept url1 url2 options env st :
  url1 <> url2 ->
  cacheKey url1 options <> cacheKey url2 options
  /\ entries_of (cacheKey url2 options)
       (cache (this (snd (makeRequest url1 options env st))))
     = entries_of (cacheKey url2 options) (cache (this st))
  /\ map_get (cacheKey url2 options)
       (cache (this (snd (makeRequest url1 options env st))))
     = map_get (cacheKey url2 options) (cache (this st)).
Proof.
  intros Hne.
  assert (Hkey : cacheKey url2 options <> cacheKey url1 options)
    by (intros H; apply Hne; symmetry; now apply (cacheKey_url_inj _ _ options)).
  split; [intros H; now apply Hkey|].
  destruct (cached (cacheKey url1 options) (now_read env) (cache (this st)))
    as [d|] eqn:Hc.
  - rewrite (makeRequest_hit _ _ _ _ _ Hc). now split.
  - destruct (makeRequest_miss _ _ _ _ Hc) as [-> _].
    rewrite makeRequest_try_cache.
    destruct (fst (makeRequest_try url1 options env st)); try (now split).
    split; [now apply entries_of_set_ne | now apply map_get_set_ne].
Qed.

(** X2.  For the same options, two URLs have the same fingerprint only when
    they are equal; so a request to one URL leaves the entries of every other
    URL as they were. *)
Theorem makeRequest_other_urls_untouched url1 url2 options env st :
  url1 <> url2 ->
  cacheKey url1 options <> cacheKey url2 options
  /\ entries_of (cacheKey url2 options)
       (cache (this (snd (makeRequest url1 options env st))))
     = entries_of (cacheKey url2 options) (cache (this st))
  /\ map_get (cacheKey url2 options)
       (cache (this (snd (makeRequest url1 options env st))))
     = map_get (cacheKey url2 options) (cache (this st)).
Proof. apply other_url_entries_kept. Qed.

Lemma makeRequest_other_urls_untouched_witness :
  let st1 := snd (makeRequest products_url [] env_ok constructed) in
  map_get (cacheKey products_url [])
    (cache (this (snd (makeRequest "https://fakestoreapi.com/products" [] env_later st1))))
  = Some (mkEntry (JArray catalog) 1120).
Proof.
  intros st1.
  destruct (makeRequest_other_urls_untouched "https://fakestoreapi.com/products"
              products_url [] env_later st1) as (_ & _ & H).
  - discriminate.
  - rewrite H. reflexivity.
Defined.

(** X3.  [fetchProducts] caches each limit apart, and
    [fetchProductsByCategory] each category: a call for one limit (category)
    neither reads nor changes what is cached for another. *)
Theorem accessors_cache_per_argument env st :
  let limit_key limit :=
    cacheKey (products (baseUrls (this st)) +:+ "?limit=" +:+ number_to_string limit) [] in
  let category_key category :=
    cacheKey (products (baseUrls (this st)) +:+ "/category/" +:+ category) [] in
  (forall limit1 limit2,
      limit1 <> limit2 ->
      limit_key limit1 <> limit_key limit2
      /\ map_get (limit_key limit2) (cache (this (snd (fetchProducts limit1 env st))))
         = map_get (limit_key limit2) (cache (this st)))
  /\ (forall category1 category2,
        category1 <> category2 ->
        category_key category1 <> category_key category2
        /\ map_get (category_key category2)
             (cache (this (snd (fetchProductsByCategory category1 env st))))
           = map_get (category_key category2) (cache (this st))).
Proof.
  intros limit_key category_key. split.
  - intros limit1 limit2 Hne.
    assert (Hurl : products (baseUrls (this st)) +:+ "?limit=" +:+ number_to_string limit1
                   <> products (baseUrls (this st)) +:+ "?limit=" +:+ number_to_string limit2).
    { intros H. apply string_append_inv_head in H.
      apply (string_append_inv_head "?limit=") in H.
      now apply number_to_string_inj in H. }
    destruct (other_url_entries_kept _ _ [] env st Hurl) as (Hk & _ & Hget).
    split; [exact Hk|].
    unfold fetchProducts. rewrite try_catch_empty_array_snd. exact Hget.
  - intros category1 category2 Hne.
    assert (Hurl : products (baseUrls (this st)) +:+ "/category/" +:+ category1
                   <> products (baseUrls (this st)) +:+ "/category/" +:+ category2).
    { intros H. apply string_append_inv_head in H.
      now apply (string_append_inv_head "/category/") in H. }
    destruct (other_url_entries_kept _ _ [] env st Hurl) as (Hk & _ & Hget).
    split; [exact Hk|].
    unfold fetchProductsByCategory. rewrite try_catch_empty_array_snd. exact Hget.
Qed.

Lemma accessors_cache_per_argument_witness :
  let st1 := snd (fetchProducts 6 env_ok constructed) in
  map_get (cacheKey products_url []) (cache (this (snd (fetchProducts 3 env_later st1))))
  = Some (mkEntry (JArray catalog) 1120).
Proof.
  intros st1.
  destruct (accessors_cache_per_argument env_later st1) as [Hlimit _].
  destruct (Hlimit 3 6) as [_ H]; [lia|].
  etransitivity; [exact H | reflexivity].
Defined.

(** X4.  [makeRequest] never removes an entry, not even a stale one: every
    fingerprint present before a call is present after it, and a call adds
    at most one entry, which it does only when it returns data for a
    fingerprint that had none. *)
Theorem makeRequest_never_evicts url options env st :
  let c := cache (this st) in
  let c' := cache (this (snd (makeRequest url options env st))) in
  (forall k, map_has k c = true -> map_has k c' = true)
  /\ (length c <= length c' <= S (length c))%nat
  /\ (length c' = S (length c) ->
      map_has (cacheKey url options) c = false
      /\ exists d, fst (makeRequest url options env st) = Return d).
Proof.
  intros c c'. unfold c'.
  destruct (cached (cacheKey url options) (now_read env) (cache (this st)))
    as [d|] eqn:Hc.
  - rewrite (makeRequest_hit _ _ _ _ _ Hc). simpl. fold c.
    split; [auto | split; [lia | intros H; lia]].
  - destruct (makeRequest_miss _ _ _ _ Hc) as [-> ->].
    rewrite makeRequest_try_cache. fold c.
    destruct (fst (makeRequest_try url options env st)) as [d|e|].
    + split; [|split].
      * intros k Hk. rewrite map_has_set, Hk. reflexivity.
      * rewrite map_set_length. destruct (map_has (cacheKey url options) c); lia.
      * rewrite map_set_length.
        destruct (map_has (cacheKey url options) c); [lia | eauto].
    + split; [auto | split; [lia | intros H; lia]].
    + split; [auto | split; [lia | intros H; lia]].
Qed.

(** X5.  [makeRequest] returns data exactly in two cases: its fingerprint
    has an entry younger than 300000 ms, whose data it returns; or it has
    none such, [fetch] settles before the timeout with a status from 200 to
    299, and the body parses, to the data returned. *)
Theorem makeRequest_returns_iff url options env st d :
  fst (makeRequest url options env st) = Return d
  <->
  cached (cacheKey url options) (now_read env) (cache (this st)) = Some d
  \/ (cached (cacheKey url options) (now_read env) (cache (this st)) = None
      /\ exists t s,
          exchange env = mkExchange (Some t) (Responds (mkResponse s (Parses d)))
          /\ t < requestTimeout (this st)
          /\ 200 <= s <= 299).
Proof.
  destruct (cached (cacheKey url options) (now_read env) (cache (this st)))
    as [d0|] eqn:Hc.
  - rewrite (makeRequest_hit _ _ _ _ _ Hc). simpl. split.
    + intros [= ->]. now left.
    + intros [[= ->] | [H _]]; [reflexivity | discriminate].
  - destruct (makeRequest_miss _ _ _ _ Hc) as [_ ->].
    rewrite makeRequest_try_result. unfold fetch, ok, json. split.
    + destruct (exchange env) as [[t|] sett]; simpl; [|discriminate].
      destruct (Z.ltb_spec t (requestTimeout (this st))) as [Ht|Ht]; [|discriminate].
      destruct sett as [[s b]|msg]; [|discriminate]. simpl.
      destruct (Z.leb_spec 200 s) as [H1|H1]; simpl; [|discriminate].
      destruct (Z.leb_spec s 299) as [H2|H2]; simpl; [|discriminate].
      destruct b as [d1|msg|msg|]; try discriminate.
      intros [= ->]. right. split; [reflexivity|].
      exists t, s. repeat split; auto.
    + intros [H | (_ & t & s & Hx & Ht & Hs)]; [discriminate|].
      rewrite Hx. simpl.
      destruct (Z.ltb_spec t (requestTimeout (this st))); [|lia]. simpl.
      destruct (Z.leb_spec 200 s); [|lia].
      destruct (Z.leb_spec s 299); [|lia]. reflexivity.
Qed.

(** ** Further properties of the renderer and of the page *)

Lemma Qle_bool_false (x y : Q) : Qle_bool x y = false -> (y < x)%Q.
Proof.
  intros H. apply Qnot_le_lt. intros Hle.
  apply Qle_bool_iff in Hle. congruence.
Qed.

Lemma Qfloor_neg (q : Q) : Qfloor q < 0 <-> (q < 0)%Q.
Proof.
  split; intros H.
  - pose proof (Qlt_floor q) as Hlt.
    assert (Hle : (inject_Z (Qfloor q + 1) <= inject_Z 0)%Q)
      by (rewrite <- Zle_Qle; lia).
    change (inject_Z 0) with 0%Q in Hle. lra.
  - pose proof (Qfloor_le q) as Hle.
    assert (Hlt : (inject_Z (Qfloor q) < inject_Z 0)%Q)
      by (change (inject_Z 0) with 0%Q; lra).
    now rewrite <- Zlt_Qlt in Hlt.
Qed.

Lemma createRatingStars_None (r : Q) :
  ProductRenderer.createRatingStars r = None
  <-> Qfloor r < 0
      \/ 5 - Qfloor r
         - (if Qle_bool (1 # 2) (ProductRenderer.rem1 r) then 1 else 0) < 0.
Proof.
  unfold ProductRenderer.createRatingStars, ProductRenderer.repeat_string.
  destruct (Z.ltb_spec (Qfloor r) 0) as [Hf|Hf].
  - split; [now left | reflexivity].
  - destruct (Z.ltb_spec
                (5 - Qfloor r
                 - (if Qle_bool (1 # 2) (ProductRenderer.rem1 r) then 1 else 0)) 0)
      as [He|He].
    + split; [now right | reflexivity].
    + split; [discriminate | lia].
Qed.

(** On a finite rating. *)
Lemma createRatingStars_finite_range (rating : Q) :
  (ProductRenderer.createRatingStars rating = None
   <-> (rating < 0)%Q \/ (11 # 2 <= rating)%Q)
  /\ (forall s, ProductRenderer.createRatingStars rating = Some s -> length s = 5%nat).
Proof.
  split.
  - rewrite createRatingStars_None. split.
    + intros [Hneg | Hempty]; [left; now apply Qfloor_neg|].
      destruct (Z.lt_ge_cases (Qfloor rating) 0) as [Hneg|Hpos];
        [left; now apply Qfloor_neg|].
      right.
      pose proof (Qfloor_le rating) as Hle.
      assert (H0 : (0 <= rating)%Q).
      { assert (Hz : (inject_Z 0 <= inject_Z (Qfloor rating))%Q)
          by (rewrite <- Zle_Qle; lia).
        change (inject_Z 0) with 0%Q in Hz. lra. }
      rewrite (rem1_nonneg rating H0) in Hempty.
      destruct (Qle_bool (1 # 2) (rating - inject_Z (Qfloor rating))) eqn:Hhalf.
      * apply Qle_bool_iff in Hhalf.
        assert (Hz : (inject_Z 5 <= inject_Z (Qfloor rating))%Q)
          by (rewrite <- Zle_Qle; lia).
        change (inject_Z 5) with 5%Q in Hz. lra.
      * assert (Hz : (inject_Z 6 <= inject_Z (Qfloor rating))%Q)
          by (rewrite <- Zle_Qle; lia).
        change (inject_Z 6) with 6%Q in Hz. lra.
    + intros [Hneg | Hbig]; [left; now apply Qfloor_neg|].
      right.
      assert (H0 : (0 <= rating)%Q) by lra.
      rewrite (rem1_nonneg rating H0).
      assert (H5 : 5 <= Qfloor rating).
      { change 5 with (Qfloor (11 # 2)). now apply Qfloor_resp_le. }
      destruct (Qle_bool (1 # 2) (rating - inject_Z (Qfloor rating))) eqn:Hhalf;
        [lia|].
      apply Qle_bool_false in Hhalf.
      destruct (Z.eq_dec (Qfloor rating) 5) as [E|E]; [|lia].
      rewrite E in Hhalf. change (inject_Z 5) with 5%Q in Hhalf. lra.
  - intros s. unfold ProductRenderer.createRatingStars, ProductRenderer.repeat_string.
    destruct (Z.ltb_spec (Qfloor rating) 0) as [Hf|Hf]; [discriminate|].
    set (half := Qle_bool (1 # 2) (ProductRenderer.rem1 rating)).
    destruct (Z.ltb_spec (5 - Qfloor rating - (if half then 1 else 0)) 0) as [He|He];
      [discriminate|].
    intros [= <-].
    rewrite !length_app, !length_concat.
    assert (Hsum : forall n, list_sum (List.map (@length N) (List.repeat [ProductRenderer.BLACK_STAR] n)) = n
                             /\ list_sum (List.map (@length N) (List.repeat [ProductRenderer.WHITE_STAR] n)) = n).
    { induction n as [|n [IH1 IH2]]; simpl; [now split | now rewrite IH1, IH2]. }
    rewrite (proj1 (Hsum _)), (proj2 (Hsum _)).
    destruct half; simpl length; lia.
Qed.

Lemma truncate_Qeq (x y : Q) : (x == y)%Q -> ProductRenderer.truncate x = ProductRenderer.truncate y.
Proof.
  intros E. unfold ProductRenderer.truncate.
  assert (Hb : Qle_bool 0 x = Qle_bool 0 y).
  { destruct (Qle_bool 0 x) eqn:Hx, (Qle_bool 0 y) eqn:Hy; try reflexivity.
    - apply Qle_bool_iff in Hx. apply Qle_bool_false in Hy. lra.
    - apply Qle_bool_iff in Hy. apply Qle_bool_false in Hx. lra. }
  rewrite Hb. destruct (Qle_bool 0 y);
    [now apply Qfloor_comp | now apply Qceiling_comp].
Qed.

Lemma truncate_inject_Z (z : Z) : ProductRenderer.truncate (inject_Z z) = z.
Proof.
  unfold ProductRenderer.truncate.
  destruct (Qle_bool 0 (inject_Z z)); [apply Qfloor_Z | apply Qceiling_Z].
Qed.

Lemma createRatingStars_number_finite (q : Q) :
  ProductRenderer.createRatingStars_number (ProductRenderer.Finite q)
  = ProductRenderer.createRatingStars q.
Proof.
  unfold ProductRenderer.createRatingStars_number, ProductRenderer.createRatingStars.
  simpl. rewrite truncate_inject_Z.
  set (half := Qle_bool (1 # 2) (ProductRenderer.rem1 q)).
  assert (E : ProductRenderer.truncate
                (5 - inject_Z (Qfloor q) - (if half then 1 else 0))%Q
              = 5 - Qfloor q - (if half then 1 else 0)).
  { rewrite <- (truncate_inject_Z (5 - Qfloor q - (if half then 1 else 0))).
    apply truncate_Qeq. unfold Z.sub.
    destruct half; rewrite !inject_Z_plus, !inject_Z_opp; simpl; ring. }
  rewrite E. reflexivity.
Qed.

(** X6.  On a finite rating [createRatingStars] throws the [RangeError] of
    [repeat] exactly below 0 and from 5.5 up, and otherwise returns a string
    of five characters (so a rating between 5 and 5.5 gives five black
    stars).  On an infinite rating it throws, and on [NaN] it returns the
    empty string. *)
Theorem createRatingStars_range_error (rating : ProductRenderer.Number) :
  (ProductRenderer.createRatingStars_number rating = None
   <-> match rating with
       | ProductRenderer.Finite q => (q < 0)%Q \/ (11 # 2 <= q)%Q
       | ProductRenderer.NaN => False
       | ProductRenderer.Infinity _ => True
       end)
  /\ ProductRenderer.createRatingStars_number ProductRenderer.NaN = Some []
  /\ (forall q s,
        rating = ProductRenderer.Finite q ->
        ProductRenderer.createRatingStars_number rating = Some s ->
        length s = 5%nat)
  /\ (forall q, ProductRenderer.createRatingStars_number (ProductRenderer.Finite q)
                = ProductRenderer.createRatingStars q).
Proof.
  split; [|split; [reflexivity | split; [|exact createRatingStars_number_finite]]].
  - destruct rating as [q| |negative].
    + rewrite createRatingStars_number_finite.
      apply createRatingStars_finite_range.
    + split; [discriminate | contradiction].
    + split; [trivial | reflexivity].
  - intros q s -> H. rewrite createRatingStars_number_finite in H.
    now apply (createRatingStars_finite_range q).
Qed.

(** X7.  [handleCategoryFilter] shows a card exactly when the category is
    "todos" or equals the card's [dataset.category], and hides the others;
    it keeps the cards and their categories, so the outcome of a filter does
    not depend on the filters applied before it. *)
Theorem handleCategoryFilter_last_filter_wins category products :
  List.map DataLoader.dataset_category (DataLoader.handleCategoryFilter category products)
  = List.map DataLoader.dataset_category products
  /\ (forall earlier,
        DataLoader.handleCategoryFilter category
          (DataLoader.handleCategoryFilter earlier products)
        = DataLoader.handleCategoryFilter category products)
  /\ (forall card,
        In card (DataLoader.handleCategoryFilter category products) ->
        (DataLoader.display card = "block" /\ DataLoader.fade_in card = true
         /\ (category = Some "todos" \/ DataLoader.dataset_category card = category))
        \/ (DataLoader.display card = "none" /\ DataLoader.fade_in card = false
            /\ category <> Some "todos" /\ DataLoader.dataset_category card <> category)).
Proof.
  assert (Hsame : forall a b, DataLoader.same_value a b = true <-> a = b).
  { intros [x|] [y|]; simpl; split; try discriminate; try reflexivity.
    - intros H. apply String.eqb_eq in H. now subst.
    - intros [= ->]. apply String.eqb_refl. }
  unfold DataLoader.handleCategoryFilter. split; [|split].
  - rewrite List.map_map. apply List.map_ext. intros p.
    destruct (_ || _); reflexivity.
  - intros earlier. rewrite List.map_map. apply List.map_ext. intros p.
    destruct (DataLoader.same_value earlier (Some "todos")
              || DataLoader.same_value (DataLoader.dataset_category p) earlier);
      reflexivity.
  - intros card Hin. apply List.in_map_iff in Hin. destruct Hin as (p & <- & _).
    destruct (DataLoader.same_value category (Some "todos")) eqn:Ht; simpl.
    + left. repeat split. left. now apply Hsame.
    + destruct (DataLoader.same_value (DataLoader.dataset_category p) category) eqn:Hc;
        simpl.
      * left. repeat split. right. now apply Hsame.
      * right. repeat split.
        -- intros E. apply Hsame in E. congruence.
        -- intros E. apply Hsame in E. congruence.
Qed.

Lemma atualizarContadorCarrinho_counter c :
  Page.contadorCarrinho (Page.atualizarContadorCarrinho c) = Page.contadorCarrinho c.
Proof. unfold Page.atualizarContadorCarrinho. now destruct (Page.numero_carrinho c). Qed.

(** The purchases that count: the card is complete and the dialog was
    confirmed. *)
Lemma click_compra_step (header : bool) c ev :
  Page.numero_carrinho c
  = (if header then Some (number_to_string (Page.contadorCarrinho c)) else None) ->
  let c' := Page.click_compra c ev in
  Page.contadorCarrinho c'
  = Page.contadorCarrinho c
    + (if Page.has_h3 ev && Page.has_preco ev && Page.confirmacao ev then 1 else 0)
  /\ Page.numero_carrinho c'
     = (if header then Some (number_to_string (Page.contadorCarrinho c')) else None).
Proof.
  intros Hshow. unfold Page.click_compra.
  destruct (Page.has_h3 ev && Page.has_preco ev); simpl; [|split; [lia | exact Hshow]].
  unfold Page.mostrarConfirmacaoCompra, Page.atualizarContadorCarrinho. simpl.
  rewrite Hshow.
  destruct header, (Page.confirmacao ev); simpl; split;
    try reflexivity; try lia; repeat f_equal; lia.
Qed.

(** X8.  After any sequence of clicks on purchase buttons the cart counter
    is the number of purchases that were confirmed: a cancelled purchase
    (counted before the dialog, uncounted after it) and a click whose
    listener throws leave it unchanged.  The counter is never negative and,
    when the page has the counter element, the element shows it. *)
Theorem cart_counts_confirmed_purchases (header : bool) (clicks : list Page.Click) :
  let c := fold_left Page.click_compra clicks (Page.cart_inicial header) in
  let confirmed :=
    List.filter (fun ev => Page.has_h3 ev && Page.has_preco ev && Page.confirmacao ev)
                clicks in
  Page.contadorCarrinho c = Z.of_nat (length confirmed)
  /\ 0 <= Page.contadorCarrinho c
  /\ Page.numero_carrinho c
     = (if header then Some (number_to_string (Page.contadorCarrinho c)) else None).
Proof.
  intros c confirmed.
  assert (Hgen : forall evs c0,
    Page.numero_carrinho c0
    = (if header then Some (number_to_string (Page.contadorCarrinho c0)) else None) ->
    Page.contadorCarrinho (fold_left Page.click_compra evs c0)
    = Page.contadorCarrinho c0
      + Z.of_nat (length (List.filter
                            (fun ev => Page.has_h3 ev && Page.has_preco ev
                                       && Page.confirmacao ev) evs))
    /\ Page.numero_carrinho (fold_left Page.click_compra evs c0)
       = (if header
          then Some (number_to_string
                       (Page.contadorCarrinho (fold_left Page.click_compra evs c0)))
          else None)).
  { induction evs as [|ev evs IH]; intros c0 H0; simpl.
    - split; [lia | exact H0].
    - destruct (click_compra_step header c0 ev H0) as [Hn Hs].
      destruct (IH _ Hs) as [IHn IHs]. split; [|exact IHs].
      rewrite IHn, Hn.
      destruct (Page.has_h3 ev && Page.has_preco ev && Page.confirmacao ev);
        simpl length; lia. }
  destruct (Hgen clicks (Page.cart_inicial header)) as [Hn Hs].
  { unfold Page.cart_inicial. simpl. now destruct header. }
  fold c in Hn, Hs. fold confirmed in Hn. simpl in Hn.
  split; [exact Hn | split; [lia | exact Hs]].
Qed.

Lemma starts_with_refl (s : list N) : UStr.starts_with s s = true.
Proof. induction s as [|c s IH]; simpl; [reflexivity | now rewrite N.eqb_refl]. Qed.

Lemma includes_refl (s : list N) : UStr.includes s s = true.
Proof. destruct s; simpl; [reflexivity | now rewrite N.eqb_refl, starts_with_refl]. Qed.

(** X9.  [validarPesquisa] finds every game of the list by its own name
    whatever the letter case of the term: a term of at least three
    characters, not blank, that lower-cases to the lower-cased name is
    answered with a list of games that holds that game; and every game
    reported is a game of the list whose lower-cased name includes the
    lower-cased term. *)
Theorem validarPesquisa_finds_by_name
    (toLowerCase : list N -> list N) (termo : list N) (jogo : string) :
  In jogo Page.jogos ->
  toLowerCase termo = toLowerCase (UStr.of_string jogo) ->
  UStr.trim termo <> [] ->
  (3 <= length termo)%nat ->
  exists encontrados,
    Page.validarPesquisa toLowerCase termo = Page.Encontrados encontrados
    /\ In jogo encontrados
    /\ (forall j, In j encontrados ->
          In j Page.jogos
          /\ UStr.includes (toLowerCase (UStr.of_string j)) (toLowerCase termo) = true).
Proof.
  intros Hin Hlower Htrim Hlen.
  set (encontrados :=
         List.filter
           (fun j => UStr.includes (toLowerCase (UStr.of_string j)) (toLowerCase termo))
           Page.jogos).
  assert (Hfound : In jogo encontrados).
  { apply List.filter_In. split; [exact Hin|]. rewrite Hlower. apply includes_refl. }
  exists encontrados. split; [|split; [exact Hfound|]].
  - unfold Page.validarPesquisa.
    destruct (UStr.trim termo) as [|c rest]; [contradiction|].
    destruct (Nat.ltb_spec (length termo) 3); [lia|].
    fold encontrados.
    destruct encontrados as [|j js]; [contradiction | reflexivity].
  - intros j Hj. apply List.filter_In in Hj. exact Hj.
Qed.

Lemma validarPesquisa_finds_by_name_witness :
  Page.validarPesquisa UStr.lower_ascii (UStr.of_string "MINECRAFT")
  = Page.Encontrados ["Minecraft"].
Proof.
  destruct (validarPesquisa_finds_by_name UStr.lower_ascii
              (UStr.of_string "MINECRAFT") "Minecraft")
    as (encontrados & Hres & _).
  - simpl. tauto.
  - reflexivity.
  - discriminate.
  - simpl. lia.
  - rewrite Hres. vm_compute in Hres. injection Hres as <-. reflexivity.
Defined.

(** ** Lemmas on [trim], [substring] and [split] *)

Lemma trim_start_spec (s : list N) :
  exists blank, s = (blank ++ UStr.trim_start s)%list
                /\ Forall (fun c => UStr.is_white_space c = true) blank.
Proof.
  induction s as [|c s (blank & Hs & Hb)]; simpl.
  - exists []. split; [reflexivity | constructor].
  - destruct (UStr.is_white_space c) eqn:Hc.
    + exists (c :: blank). split; [simpl; now f_equal | now constructor].
    + exists []. split; [reflexivity | constructor].
Qed.

Lemma trim_start_head (s : list N) c rest :
  UStr.trim_start s = c :: rest -> UStr.is_white_space c = false.
Proof.
  induction s as [|c0 s IH]; simpl; [discriminate|].
  destruct (UStr.is_white_space c0) eqn:Hc; [exact IH|].
  intros [= <- _]. exact Hc.
Qed.

Lemma trim_end_spec (s : list N) :
  exists blank, s = (UStr.trim_end s ++ blank)%list
                /\ Forall (fun c => UStr.is_white_space c = true) blank.
Proof.
  unfold UStr.trim_end.
  destruct (trim_start_spec (rev s)) as (blank & Hs & Hb).
  exists (rev blank). split.
  - rewrite <- rev_app_distr, <- Hs. now rewrite rev_involutive.
  - now apply List.Forall_rev.
Qed.

Lemma trim_end_last (s : list N) body c :
  UStr.trim_end s = (body ++ [c])%list -> UStr.is_white_space c = false.
Proof.
  unfold UStr.trim_end. intros H.
  apply (f_equal (@rev N)) in H. rewrite rev_involutive, rev_app_distr in H.
  simpl in H. now apply trim_start_head in H.
Qed.

(** The head of a trimmed string is not white space either: trimming the
    end keeps a non-blank head in place. *)
Lemma trim_head (s : list N) c rest :
  UStr.trim s = c :: rest -> UStr.is_white_space c = false.
Proof.
  unfold UStr.trim. intros H.
  destruct (trim_end_spec (UStr.trim_start s)) as (blank & Hs & _).
  rewrite H in Hs. simpl in Hs. now apply trim_start_head in Hs.
Qed.

Lemma substring_from_start (s : list N) (stop : Z) :
  UStr.substring s 0 stop = List.firstn (Z.to_nat (Z.max stop 0)) s.
Proof.
  unfold UStr.substring, UStr.clamp.
  replace (Z.to_nat (Z.min (Z.max 0 0) (Z.of_nat (length s)))) with 0%nat by lia.
  rewrite Nat.min_0_l, Nat.max_0_l, Nat.sub_0_r.
  change (List.skipn 0 s) with s.
  destruct (Z.le_gt_cases (Z.max stop 0) (Z.of_nat (length s))) as [H|H].
  - now rewrite Z.min_l by lia.
  - rewrite Z.min_r by lia. rewrite Nat2Z.id.
    rewrite !firstn_all2; [reflexivity | lia | lia].
Qed.

(** X10.  [truncateText] returns a text that fits as it is.  Of a longer
    text it takes the first [max(maxLength, 0)] characters, drops the white
    space at both ends of them, and appends three dots: what is kept neither
    starts nor ends with white space, and the result has at most
    [max(maxLength, 0) + 3] characters, which can be more than the text
    itself. *)
Theorem truncateText_fits_or_cuts (text : list N) (maxLength : Z) :
  (Z.of_nat (length text) <= maxLength
   /\ ProductRenderer.truncateText text maxLength = text)
  \/
  (maxLength < Z.of_nat (length text)
   /\ exists before kept blank rest,
       text = (before ++ kept ++ blank ++ rest)%list
       /\ Z.of_nat (length before + length kept + length blank) = Z.max maxLength 0
       /\ List.Forall (fun c => UStr.is_white_space c = true) before
       /\ List.Forall (fun c => UStr.is_white_space c = true) blank
       /\ (forall c more, kept = c :: more -> UStr.is_white_space c = false)
       /\ (forall body c, kept = (body ++ [c])%list -> UStr.is_white_space c = false)
       /\ ProductRenderer.truncateText text maxLength
          = (kept ++ UStr.of_string "...")%list
       /\ Z.of_nat (length (ProductRenderer.truncateText text maxLength))
          <= Z.max maxLength 0 + 3).
Proof.
  unfold ProductRenderer.truncateText.
  destruct (Z.leb_spec (Z.of_nat (length text)) maxLength) as [Hfit|Hlong];
    [left; now split | right; split; [exact Hlong|]].
  rewrite substring_from_start.
  set (n := Z.to_nat (Z.max maxLength 0)).
  set (head := List.firstn n text).
  destruct (trim_start_spec head) as (before & Hhead & Hbefore).
  destruct (trim_end_spec (UStr.trim_start head)) as (blank & Hmid & Hblank).
  fold (UStr.trim head) in Hmid.
  assert (Hn : length head = n).
  { unfold head. apply firstn_length_le. unfold n. lia. }
  assert (Hlen : (length before + length (UStr.trim head) + length blank = n)%nat).
  { assert (E : length head
                = (length before + (length (UStr.trim head) + length blank))%nat).
    { rewrite Hhead at 1. rewrite Hmid at 1. now rewrite !length_app. }
    lia. }
  exists before, (UStr.trim head), blank, (List.skipn n text).
  split; [|split; [|split; [exact Hbefore | split; [exact Hblank | split; [|split; [|split]]]]]].
  - rewrite <- (firstn_skipn n text) at 1. fold head.
    rewrite Hhead at 1. rewrite Hmid at 1.
    now rewrite <- !app_assoc.
  - rewrite Hlen. unfold n. lia.
  - apply trim_head.
  - intros body c H. unfold UStr.trim in H. now apply trim_end_last in H.
  - reflexivity.
  - rewrite length_app. change (length (UStr.of_string "...")) with 3%nat.
    unfold n in Hlen. lia.
Qed.

Lemma split_nonempty sep s : split sep s <> [].
Proof.
  destruct s as [|c s]; simpl; [discriminate|].
  destruct (Ascii.eqb c sep); [discriminate|].
  destruct (split sep s); discriminate.
Qed.

Lemma contains_char_append c a b :
  contains_char c (a +:+ b) = contains_char c a || contains_char c b.
Proof.
  induction a as [|x a IH]; [reflexivity|].
  change (contains_char c (String x (a +:+ b))
          = contains_char c (String x a) || contains_char c b).
  simpl. rewrite IH. now rewrite orb_assoc.
Qed.

(** A string without the separator is one piece. *)
Lemma split_single sep s : contains_char sep s = false -> split sep s = [s].
Proof.
  induction s as [|c s IH]; simpl; [reflexivity|].
  destruct (Ascii.eqb c sep); simpl; [discriminate|].
  intros H. now rewrite (IH H).
Qed.

Lemma split_append sep a b :
  split sep (a +:+ String sep b) = (split sep a ++ split sep b)%list.
Proof.
  induction a as [|c a IH].
  - simpl. now rewrite Ascii.eqb_refl.
  - change (split sep (String c (a +:+ String sep b))
            = (split sep (String c a) ++ split sep b)%list).
    simpl. rewrite IH.
    destruct (Ascii.eqb c sep); [reflexivity|].
    pose proof (split_nonempty sep a) as Hne.
    destruct (split sep a) as [|piece pieces]; [contradiction | reflexivity].
Qed.

(** The pieces hold neither the separator nor any character that the
    string does not hold. *)
Lemma split_pieces sep c s :
  (Ascii.eqb c sep = true \/ contains_char c s = false) ->
  Forall (fun piece => contains_char c piece = false) (split sep s).
Proof.
  induction s as [|x s IH]; simpl; intros H.
  - repeat constructor.
  - destruct (Ascii.eqb_spec x sep) as [->|Hx].
    + constructor; [reflexivity|]. apply IH.
      destruct H as [H|H]; [now left|].
      right. apply orb_false_iff in H. tauto.
    + assert (Hxc : Ascii.eqb x c = false).
      { destruct H as [H|H].
        - apply Ascii.eqb_eq in H. subst c. now apply Ascii.eqb_neq.
        - apply orb_false_iff in H. tauto. }
      assert (IH' : Forall (fun piece => contains_char c piece = false) (split sep s)).
      { apply IH. destruct H as [H|H]; [now left|].
        right. apply orb_false_iff in H. tauto. }
      destruct (split sep s) as [|piece pieces]; [repeat constructor; simpl; now rewrite Hxc|].
      inversion IH' as [|? ? Hp Hps]; subst.
      constructor; [simpl; now rewrite Hxc, Hp | exact Hps].
Qed.

Lemma last_In_nonempty {A : Type} (l : list A) d : l <> [] -> In (List.last l d) l.
Proof.
  induction l as [|x [|y l] IH]; intros H; [contradiction | now left |].
  right. apply IH. discriminate.
Qed.

(** X11.  [getCurrentPage] never returns the empty string, and the name
    it returns holds neither a slash nor a dot. *)
Theorem getCurrentPage_is_a_name (pathname : string) :
  DataLoader.getCurrentPage pathname <> ""
  /\ contains_char "/" (DataLoader.getCurrentPage pathname) = false
  /\ contains_char "." (DataLoader.getCurrentPage pathname) = false.
Proof.
  unfold DataLoader.getCurrentPage.
  set (segment := List.last (split "/" pathname) "").
  set (page := List.hd "" (split "." segment)).
  assert (Hseg : contains_char "/" segment = false).
  { pose proof (split_pieces "/" "/" pathname (or_introl eq_refl)) as Hall.
    rewrite List.Forall_forall in Hall. apply Hall.
    apply last_In_nonempty, split_nonempty. }
  assert (Hin : In page (split "." segment)).
  { unfold page. pose proof (split_nonempty "." segment) as Hne.
    destruct (split "." segment); [contradiction | now left]. }
  assert (Hslash : contains_char "/" page = false).
  { pose proof (split_pieces "." "/" segment (or_intror Hseg)) as Hall.
    rewrite List.Forall_forall in Hall. now apply Hall. }
  assert (Hdot : contains_char "." page = false).
  { pose proof (split_pieces "." "." segment (or_introl eq_refl)) as Hall.
    rewrite List.Forall_forall in Hall. now apply Hall. }
  destruct (String.eqb_spec page "") as [E|E].
  - split; [discriminate | split; reflexivity].
  - split; [exact E | split; assumption].
Qed.

(** X12.  The page is named after the file of the path: whatever the
    directories before the last slash and whatever follows the first dot of
    the file name, [getCurrentPage] returns the part of the file name before
    that dot, and "index" when that part is empty (a path that ends in a
    slash, a file name that starts with a dot). *)
Theorem getCurrentPage_file_name (directories name extension : string) :
  contains_char "/" name = false ->
  contains_char "." name = false ->
  contains_char "/" extension = false ->
  let page := if String.eqb name "" then "index" else name in
  DataLoader.getCurrentPage (directories +:+ "/" +:+ name +:+ "." +:+ extension) = page
  /\ DataLoader.getCurrentPage (directories +:+ "/" +:+ name) = page.
Proof.
  intros Hslash Hdot Hext page.
  unfold DataLoader.getCurrentPage. split.
  - change (directories +:+ "/" +:+ name +:+ "." +:+ extension)
      with (directories +:+ String "/" (name +:+ String "." extension)).
    rewrite split_append.
    rewrite (split_single "/" (name +:+ String "." extension)).
    + rewrite last_last. rewrite split_append.
      rewrite (split_single "." name Hdot). reflexivity.
    + rewrite contains_char_append, Hslash. simpl. exact Hext.
  - change (directories +:+ "/" +:+ name) with (directories +:+ String "/" name).
    rewrite split_append, (split_single "/" name Hslash), last_last.
    rewrite (split_single "." name Hdot). reflexivity.
Qed.

Lemma getCurrentPage_file_name_witness :
  DataLoader.getCurrentPage "/loja/produtos.min.html" = "produtos"
  /\ DataLoader.getCurrentPage "/loja/" = "index".
Proof.
  split.
  - apply (getCurrentPage_file_name "/loja" "produtos" "min.html"); reflexivity.
  - apply (getCurrentPage_file_name "/loja" "" "html"); reflexivity.
Defined.

(** ** Properties of the cart storage and of the contact form *)

Lemma digits_of_uint (d : Decimal.uint) (rest : list N) :
  (forall c more, rest = c :: more -> GameStoreManager.digit_of c = None) ->
  GameStoreManager.digits (UStr.of_string (NilEmpty.string_of_uint d) ++ rest) = d.
Proof.
  intros Hrest.
  induction d; simpl; try (unfold UStr.of_string in *; simpl; now rewrite IHd).
  destruct rest as [|c more]; [reflexivity|].
  simpl. now rewrite (Hrest c more eq_refl).
Qed.

Lemma of_uint_head (d : Decimal.uint) :
  d <> Decimal.Nil ->
  exists c rest,
    UStr.of_string (NilEmpty.string_of_uint d) = c :: rest
    /\ (48 <= c <= 57)%N.
Proof.
  intros Hd. destruct d; [contradiction | ..];
    (eexists; eexists; split; [reflexivity | simpl; lia]).
Qed.

(** [parseInt] reads back what [toString] writes. *)
Lemma parseInt_number_to_string (n : Z) :
  GameStoreManager.parseInt (UStr.of_string (number_to_string n)) = Some n.
Proof.
  unfold number_to_string.
  assert (Hpos : forall p,
    GameStoreManager.digits
      (UStr.of_string (NilEmpty.string_of_uint (Pos.to_uint p))) = Pos.to_uint p).
  { intros p. rewrite <- (app_nil_r (UStr.of_string _)).
    apply digits_of_uint. intros c more H. discriminate H. }
  assert (Hval : forall p, Z.of_uint (Pos.to_uint p) = Z.pos p).
  { intros p. unfold Z.of_uint. now rewrite DecimalPos.Unsigned.of_to. }
  assert (Hstr : forall p,
    NilZero.string_of_uint (Pos.to_uint p) = NilEmpty.string_of_uint (Pos.to_uint p)).
  { intros p. pose proof (DecimalPos.Unsigned.to_uint_nonnil p) as Hnn.
    now destruct (Pos.to_uint p). }
  destruct n as [|p|p]; [reflexivity | |].
  - simpl Z.to_int. simpl NilZero.string_of_int. rewrite Hstr.
    pose proof (DecimalPos.Unsigned.to_uint_nonnil p) as Hnn.
    destruct (of_uint_head _ Hnn) as (c & rest & Hc & Hrange).
    unfold GameStoreManager.parseInt.
    assert (Htrim : UStr.trim_start (UStr.of_string (NilEmpty.string_of_uint (Pos.to_uint p)))
                    = UStr.of_string (NilEmpty.string_of_uint (Pos.to_uint p))).
    { rewrite Hc. simpl. unfold UStr.is_white_space.
      repeat match goal with
             | |- context [(?a <=? ?b)%N] => destruct (N.leb_spec a b); try lia
             | |- context [(?a =? ?b)%N] => destruct (N.eqb_spec a b); try lia
             end; reflexivity. }
    rewrite Htrim. rewrite Hc.
    destruct (N.eqb_spec c 45); [lia|]. destruct (N.eqb_spec c 43); [lia|].
    cbn [snd fst]. rewrite <- Hc, Hpos.
    destruct (Pos.to_uint p) eqn:E; [contradiction | ..]; rewrite <- E, Hval; reflexivity.
  - simpl Z.to_int. simpl NilZero.string_of_int. rewrite Hstr.
    unfold GameStoreManager.parseInt.
    change (UStr.of_string (String "-" (NilEmpty.string_of_uint (Pos.to_uint p))))
      with (45%N :: UStr.of_string (NilEmpty.string_of_uint (Pos.to_uint p))).
    cbn [UStr.trim_start]. change (UStr.is_white_space 45) with false.
    cbn [N.eqb Pos.eqb snd fst]. rewrite Hpos.
    pose proof (DecimalPos.Unsigned.to_uint_nonnil p) as Hnn.
    destruct (Pos.to_uint p) eqn:E; [contradiction | ..]; rewrite <- E, Hval; reflexivity.
Qed.

Lemma saved_count_loaded (n : Z) m0 s :
  GameStoreManager.throws s = false ->
  GameStoreManager.items s !! "gamestore_cart_count"
  = Some (UStr.of_string (number_to_string n)) ->
  GameStoreManager.loadCartFromStorage m0 s
  = GameStoreManager.updateCartDisplay
      {| GameStoreManager.cartCounter := n;
         GameStoreManager.cartNumber := GameStoreManager.cartNumber m0 |}.
Proof.
  intros Hs Hitem.
  unfold GameStoreManager.loadCartFromStorage, GameStoreManager.getItem.
  rewrite Hs, Hitem.
  pose proof (parseInt_number_to_string n) as Hparse.
  destruct (UStr.of_string (number_to_string n)) as [|c rest]; [discriminate|].
  now rewrite Hparse.
Qed.

Lemma updateCartDisplay_counter m :
  GameStoreManager.cartCounter (GameStoreManager.updateCartDisplay m)
  = GameStoreManager.cartCounter m.
Proof.
  unfold GameStoreManager.updateCartDisplay.
  now destruct (GameStoreManager.cartNumber m).
Qed.

(** X13.  The cart survives a reload.  For a counter in the range where a
    number is an exact integer and a storage that works, what
    [saveCartToStorage] writes is read back by [loadCartFromStorage] into
    any manager as the same counter, shown in the counter element when there
    is one; so after [addToCart] a reload gives the counter plus one.  With
    a storage whose calls throw nothing is written and nothing is loaded. *)
Theorem cart_survives_reload m m0 s :
  - 2 ^ 53 < GameStoreManager.cartCounter m < 2 ^ 53 - 1 ->
  (GameStoreManager.throws s = false ->
   let reloaded :=
     GameStoreManager.loadCartFromStorage m0 (GameStoreManager.saveCartToStorage m s) in
   let reloaded' :=
     GameStoreManager.loadCartFromStorage m0 (snd (GameStoreManager.addToCart m s)) in
   GameStoreManager.cartCounter reloaded = GameStoreManager.cartCounter m
   /\ GameStoreManager.cartCounter reloaded' = GameStoreManager.cartCounter m + 1
   /\ (forall shown, GameStoreManager.cartNumber m0 = Some shown ->
         GameStoreManager.cartNumber reloaded
         = Some (number_to_string (GameStoreManager.cartCounter m))))
  /\ (GameStoreManager.throws s = true ->
      GameStoreManager.saveCartToStorage m s = s
      /\ GameStoreManager.loadCartFromStorage m0 s = m0).
Proof.
  intros _. split.
  - intros Hs reloaded reloaded'.
    assert (Hsave : forall m1,
      GameStoreManager.loadCartFromStorage m0 (GameStoreManager.saveCartToStorage m1 s)
      = GameStoreManager.updateCartDisplay
          {| GameStoreManager.cartCounter := GameStoreManager.cartCounter m1;
             GameStoreManager.cartNumber := GameStoreManager.cartNumber m0 |}).
    { intros m1. apply saved_count_loaded;
        unfold GameStoreManager.saveCartToStorage, GameStoreManager.setItem;
        rewrite Hs; simpl; [reflexivity | apply lookup_insert_eq]. }
    split; [|split].
    + unfold reloaded. rewrite Hsave. now rewrite updateCartDisplay_counter.
    + unfold reloaded', GameStoreManager.addToCart. simpl snd. rewrite Hsave.
      now rewrite !updateCartDisplay_counter.
    + intros shown Hshown. unfold reloaded. rewrite Hsave.
      unfold GameStoreManager.updateCartDisplay. simpl. now rewrite Hshown.
  - intros Hs. split.
    + unfold GameStoreManager.saveCartToStorage, GameStoreManager.setItem.
      now rewrite Hs.
    + unfold GameStoreManager.loadCartFromStorage, GameStoreManager.getItem.
      now rewrite Hs.
Qed.

Lemma cart_survives_reload_witness :
  let s := GameStoreManager.mkStorage ∅ false in
  let m := GameStoreManager.mk 41 (Some "41") in
  GameStoreManager.cartCounter
    (GameStoreManager.loadCartFromStorage (GameStoreManager.mk 0 (Some "0"))
       (snd (GameStoreManager.addToCart m s))) = 42.
Proof.
  intros s m.
  destruct (cart_survives_reload m (GameStoreManager.mk 0 (Some "0")) s) as [Hworks _].
  - simpl. lia.
  - destruct (Hworks eq_refl) as (_ & H & _). exact H.
Defined.

(** X14.  [clearAllData] with a storage that works resets the counter to 0
    and removes both items, so a reload leaves any manager as it is; when
    the storage throws, the counter is not reset and nothing changes. *)
Theorem clearAllData_resets_or_keeps m s :
  (GameStoreManager.throws s = false ->
   let m' := fst (GameStoreManager.clearAllData m s) in
   let s' := snd (GameStoreManager.clearAllData m s) in
   GameStoreManager.cartCounter m' = 0
   /\ GameStoreManager.items s' !! "gamestore_cart_count" = None
   /\ GameStoreManager.items s' !! "gamestore_theme" = None
   /\ (forall k, k <> "gamestore_cart_count" -> k <> "gamestore_theme" ->
         GameStoreManager.items s' !! k = GameStoreManager.items s !! k)
   /\ (forall m0, GameStoreManager.loadCartFromStorage m0 s' = m0))
  /\ (GameStoreManager.throws s = true -> GameStoreManager.clearAllData m s = (m, s)).
Proof.
  split.
  - intros Hs. unfold GameStoreManager.clearAllData, GameStoreManager.removeItem.
    rewrite Hs. simpl.
    split; [apply updateCartDisplay_counter|].
    assert (Hcart : delete "gamestore_theme"
                      (delete "gamestore_cart_count" (GameStoreManager.items s))
                    !! "gamestore_cart_count" = None).
    { rewrite lookup_delete_ne by discriminate. apply lookup_delete_eq. }
    split; [exact Hcart | split; [apply lookup_delete_eq | split]].
    + intros k Hk1 Hk2. now rewrite !lookup_delete_ne by congruence.
    + intros m0. unfold GameStoreManager.loadCartFromStorage, GameStoreManager.getItem.
      simpl. now rewrite Hcart.
  - intros Hs. unfold GameStoreManager.clearAllData, GameStoreManager.removeItem.
    now rewrite Hs.
Qed.

Lemma clearAllData_resets_or_keeps_witness :
  let s := GameStoreManager.mkStorage
             {[ "gamestore_cart_count" := UStr.of_string "7" ]} false in
  GameStoreManager.cartCounter
    (fst (GameStoreManager.clearAllData (GameStoreManager.mk 7 None) s)) = 0
  /\ GameStoreManager.clearAllData (GameStoreManager.mk 7 None)
       (GameStoreManager.mkStorage ∅ true)
     = (GameStoreManager.mk 7 None, GameStoreManager.mkStorage ∅ true).
Proof.
  intros s. split.
  - destruct (clearAllData_resets_or_keeps (GameStoreManager.mk 7 None) s) as [H _].
    destruct (H eq_refl) as [H0 _]. exact H0.
  - destruct (clearAllData_resets_or_keeps (GameStoreManager.mk 7 None)
                (GameStoreManager.mkStorage ∅ true)) as [_ H].
    exact (H eq_refl).
Defined.

(** ** The pattern of [isValidEmail] *)

Lemma nullable_spec r : GameStoreManager.nullable r = true <-> GameStoreManager.lang r [].
Proof.
  split.
  - induction r; simpl; intros H; try discriminate.
    + constructor.
    + apply andb_true_iff in H. destruct H as [H1 H2].
      change (@nil N) with (@nil N ++ @nil N)%list. constructor; auto.
    + apply orb_true_iff in H. destruct H as [H|H];
        [apply GameStoreManager.lang_alt_l | apply GameStoreManager.lang_alt_r]; auto.
    + constructor.
  - intros H. remember (@nil N) as s eqn:E.
    induction H; simpl; try discriminate; try reflexivity.
    + apply app_eq_nil in E. destruct E as [-> ->].
      rewrite IHlang1, IHlang2; reflexivity.
    + rewrite IHlang by assumption. reflexivity.
    + rewrite IHlang by assumption. apply orb_true_r.
Qed.

Lemma deriv_sound c r s :
  GameStoreManager.lang (GameStoreManager.deriv c r) s -> GameStoreManager.lang r (c :: s).
Proof.
  revert s. induction r; simpl; intros s H.
  - inversion H.
  - inversion H.
  - destruct (p c) eqn:Hp; inversion H; subst. now constructor.
  - destruct (GameStoreManager.nullable r1) eqn:Hn.
    + inversion H as [| | | ? ? ? Hl | ? ? ? Hr | |]; subst.
      * inversion Hl; subst.
        change (c :: s1 ++ s2) with ((c :: s1) ++ s2)%list. constructor; auto.
      * change (c :: s) with ([] ++ c :: s)%list. constructor; auto.
        now apply nullable_spec.
    + inversion H; subst.
      change (c :: s1 ++ s2) with ((c :: s1) ++ s2)%list. constructor; auto.
  - inversion H; subst;
      [apply GameStoreManager.lang_alt_l | apply GameStoreManager.lang_alt_r]; auto.
  - inversion H; subst.
    change (c :: s1 ++ s2) with ((c :: s1) ++ s2)%list. constructor; auto.
Qed.

Lemma deriv_complete c r s :
  GameStoreManager.lang r (c :: s) -> GameStoreManager.lang (GameStoreManager.deriv c r) s.
Proof.
  intros H. remember (c :: s) as w eqn:E. revert s E.
  induction H as [ | p c0 Hp | r1 r2 s1 s2 H1 IH1 H2 IH2 | r1 r2 w H1 IH1
                 | r1 r2 w H2 IH2 | r | r s1 s2 H1 IH1 H2 IH2 ];
    intros t E; simpl.
  - discriminate.
  - injection E as -> <-. rewrite Hp. constructor.
  - destruct s1 as [|c1 s1]; simpl in E.
    + subst s2.
      assert (Hn : GameStoreManager.nullable r1 = true) by now apply nullable_spec.
      rewrite Hn. apply GameStoreManager.lang_alt_r. now apply IH2.
    + injection E as -> <-.
      assert (Hs : GameStoreManager.lang
                     (GameStoreManager.Seq (GameStoreManager.deriv c r1) r2) (s1 ++ s2))
        by (constructor; auto).
      destruct (GameStoreManager.nullable r1);
        [now apply GameStoreManager.lang_alt_l | exact Hs].
  - apply GameStoreManager.lang_alt_l. now apply IH1.
  - apply GameStoreManager.lang_alt_r. now apply IH2.
  - discriminate.
  - destruct s1 as [|c1 s1]; simpl in E.
    + now apply IH2.
    + injection E as -> <-. constructor; auto.
Qed.

(** [test] decides the language of the pattern. *)
Lemma test_spec r s : GameStoreManager.test r s = true <-> GameStoreManager.lang r s.
Proof.
  revert r. induction s as [|c s IH]; intros r; simpl.
  - apply nullable_spec.
  - rewrite IH. split; [apply deriv_sound | apply deriv_complete].
Qed.

Lemma lang_seq_inv r1 r2 s :
  GameStoreManager.lang (GameStoreManager.Seq r1 r2) s
  <-> exists s1 s2, s = (s1 ++ s2)%list
                    /\ GameStoreManager.lang r1 s1 /\ GameStoreManager.lang r2 s2.
Proof.
  split.
  - intros H. inversion H; subst. eauto.
  - intros (s1 & s2 & -> & H1 & H2). now constructor.
Qed.

Lemma lang_class_inv p s :
  GameStoreManager.lang (GameStoreManager.Class p) s <-> exists c, s = [c] /\ p c = true.
Proof.
  split.
  - intros H. inversion H; subst. eauto.
  - intros (c & -> & H). now constructor.
Qed.

Lemma lang_star_class p s :
  GameStoreManager.lang (GameStoreManager.Star (GameStoreManager.Class p)) s
  <-> List.Forall (fun c => p c = true) s.
Proof.
  split.
  - intros H. remember (GameStoreManager.Star (GameStoreManager.Class p)) as r eqn:E.
    induction H; try discriminate.
    + constructor.
    + injection E as ->. inversion H; subst. simpl. constructor; auto.
  - induction 1 as [|c s Hc _ IH].
    + constructor.
    + change (c :: s) with ([c] ++ s)%list. constructor; [now constructor | exact IH].
Qed.

Lemma lang_plus_class p s :
  GameStoreManager.lang (GameStoreManager.Plus (GameStoreManager.Class p)) s
  <-> s <> [] /\ List.Forall (fun c => p c = true) s.
Proof.
  unfold GameStoreManager.Plus. rewrite lang_seq_inv. split.
  - intros (s1 & s2 & -> & H1 & H2).
    apply lang_class_inv in H1. destruct H1 as (c & -> & Hc).
    apply lang_star_class in H2. split; [discriminate | now constructor].
  - intros [Hne Hall]. destruct s as [|c s]; [contradiction|].
    inversion Hall; subst. exists [c], s. split; [reflexivity|].
    split; [now constructor | now apply lang_star_class].
Qed.

Lemma isValidEmail_shape (address : list N) :
  GameStoreManager.isValidEmail address = true
  <-> GameStoreManager.address_shaped address.
Proof.
  unfold GameStoreManager.isValidEmail, GameStoreManager.address_shaped.
  rewrite test_spec. unfold GameStoreManager.emailRegex. split.
  - intros H.
    apply lang_seq_inv in H. destruct H as (local & r1 & -> & Hlocal & H).
    apply lang_seq_inv in H. destruct H as (at1 & r2 & -> & Hat & H).
    apply lang_seq_inv in H. destruct H as (domain & r3 & -> & Hdomain & H).
    apply lang_seq_inv in H. destruct H as (dot & top & -> & Hdot & Htop).
    apply lang_class_inv in Hat. destruct Hat as (c & -> & Hc).
    apply N.eqb_eq in Hc. subst c.
    apply lang_class_inv in Hdot. destruct Hdot as (c & -> & Hc).
    apply N.eqb_eq in Hc. subst c.
    apply lang_plus_class in Hlocal, Hdomain, Htop.
    exists local, domain, top. tauto.
  - intros (local & domain & top & -> & Hl & Hd & Ht & Hla & Hda & Hta).
    constructor; [now apply lang_plus_class|].
    constructor; [now constructor|].
    constructor; [now apply lang_plus_class|].
    constructor; [now constructor | now apply lang_plus_class].
Qed.

Lemma not_space_or_at_spec c :
  GameStoreManager.not_space_or_at c = true
  <-> UStr.is_white_space c = false /\ c <> 64%N.
Proof.
  unfold GameStoreManager.not_space_or_at.
  rewrite negb_true_iff, orb_false_iff, N.eqb_neq. tauto.
Qed.

Lemma count_at_zero (s : list N) :
  List.Forall (fun c => GameStoreManager.not_space_or_at c = true) s ->
  List.count_occ N.eq_dec s 64%N = 0%nat.
Proof.
  induction 1 as [|c s Hc _ IH]; simpl; [reflexivity|].
  apply not_space_or_at_spec in Hc.
  destruct (N.eq_dec c 64%N); [tauto | exact IH].
Qed.

(** X15.  [isValidEmail] accepts exactly the addresses made of a local
    part, "@", a domain, "." and a last part, where the three parts are not
    empty and hold neither white space nor "@".  An accepted address thus
    holds exactly one "@", no white space, and at least five characters. *)
Theorem isValidEmail_accepts_exactly (address : list N) :
  (GameStoreManager.isValidEmail address = true
   <-> GameStoreManager.address_shaped address)
  /\ (GameStoreManager.isValidEmail address = true ->
      List.count_occ N.eq_dec address 64%N = 1%nat
      /\ List.Forall (fun c => UStr.is_white_space c = false) address
      /\ (5 <= length address)%nat).
Proof.
  split; [apply isValidEmail_shape|].
  intros H. apply isValidEmail_shape in H.
  destruct H as (local & domain & top & -> & Hl & Hd & Ht & Hla & Hda & Hta).
  split; [|split].
  - rewrite !count_occ_app.
    rewrite (count_at_zero local Hla), (count_at_zero domain Hda), (count_at_zero top Hta).
    reflexivity.
  - assert (Hws : forall s,
      List.Forall (fun c => GameStoreManager.not_space_or_at c = true) s ->
      List.Forall (fun c => UStr.is_white_space c = false) s).
    { intros s Hs. eapply List.Forall_impl; [|exact Hs].
      intros c Hc. now apply not_space_or_at_spec in Hc. }
    repeat (apply List.Forall_app; split); auto; repeat constructor.
  - rewrite !length_app. simpl.
    destruct local, domain, top; simpl; try contradiction; lia.
Qed.

Lemma isValidEmail_accepts_exactly_witness :
  List.count_occ N.eq_dec (UStr.of_string "ana@loja.com.br") 64%N = 1%nat
  /\ (5 <= length (UStr.of_string "ana@loja.com.br"))%nat.
Proof.
  destruct (isValidEmail_accepts_exactly (UStr.of_string "ana@loja.com.br")) as [_ H].
  destruct (H eq_refl) as (Hcount & _ & Hlen). split; assumption.
Defined.

(** X16.  [validateFormData] accepts a form exactly when the name is not
    empty, the address is one [isValidEmail] accepts, and the message has at
    least ten characters; otherwise it reports the first of these three
    checks that fails. *)
Theorem validateFormData_first_failure (data : GameStoreManager.FormData) :
  let named := GameStoreManager.name data <> [] in
  let addressed := GameStoreManager.address_shaped (GameStoreManager.email data) in
  let worded := (10 <= length (GameStoreManager.message data))%nat in
  (GameStoreManager.validateFormData data = inl tt <-> named /\ addressed /\ worded)
  /\ (GameStoreManager.validateFormData data = inr GameStoreManager.PreenchaNome
      <-> ~ named)
  /\ (GameStoreManager.validateFormData data = inr GameStoreManager.EmailInvalido
      <-> named /\ ~ addressed)
  /\ (GameStoreManager.validateFormData data = inr GameStoreManager.MensagemCurta
      <-> named /\ addressed /\ ~ worded).
Proof.
  intros named addressed worded. unfold named, addressed, worded.
  unfold GameStoreManager.validateFormData.
  pose proof (isValidEmail_shape (GameStoreManager.email data)) as Hshape.
  destruct (GameStoreManager.name data) as [|c rest].
  - repeat split; intros; try discriminate;
      intuition (try discriminate; try congruence).
  - assert (Hn : c :: rest <> []) by discriminate.
    destruct (GameStoreManager.isValidEmail (GameStoreManager.email data)) eqn:Hv; simpl.
    + assert (Ha : GameStoreManager.address_shaped (GameStoreManager.email data))
        by now apply Hshape.
      destruct (Nat.ltb_spec (length (GameStoreManager.message data)) 10);
        repeat split; intros; try discriminate;
        intuition (try discriminate; try congruence; try lia).
    + assert (Ha : ~ GameStoreManager.address_shaped (GameStoreManager.email data)).
      { intros Ha. apply Hshape in Ha. congruence. }
      repeat split; intros; try discriminate;
        intuition (try discriminate; try congruence).
Qed.
